(** * FunASR: the CIF predictor export and the punctuation scorer

    A shallow embedding of
    - [funasr/export/models/predictor/cif.py]: [sequence_mask],
      [sequence_mask_scripts], [cif], [CifPredictorV2.forward] and
      [CifPredictorV2.tail_process_fn];
    - [funasr/punctuation/espnet_model.py]: [ESPnetPunctuationModel.nll],
      [batchify_nll] and [forward].

    Conventions of the embedding.
    - A tensor is the nested list of its entries; the tensor whose [size()]
      the code reads ([hidden]) carries its shape next to its data, so that an
      empty batch or an empty time axis still has a hidden size.
    - Scalars are exact rationals ([Qc]): the development is about the
      algorithm, rounding of the float dtype is outside the model.  The
      literals of the examples (1/2, 3/4, 1, ...) are dyadic, so the float
      computation on them is exact as well.  A theorem that compares the
      run with an exact sum of its inputs is stated for inputs on the grid
      of the multiples of 2^-23 and for values below 2 in absolute value
      ([CifLaws.on_grid]): there every sum and difference of the loop is a
      binary32 number, and the float run is the run of the model.
    - An operation that raises in PyTorch returns [Raise]; everything else is
      [Ok].  [cif] is compiled by [torch.jit.script], which reports an index
      out of range as a [RuntimeError].  Broadcasting between tensors of different shapes is not modelled:
      the theorems are stated for shape-consistent inputs.
    - Tensors that the code updates in place ([+=]) and also appends to a
      Python list live in a store and are named by references, so that the
      aliasing between the loop variable and the list entry is part of the
      model.
    - Strides are modelled only where the code calls [view] on a column
      slice ([view_flat_slice]); every other tensor is contiguous. *)

From Stdlib Require Import ZArith QArith Qcanon Qround Lia Lqa.
From stdpp Require Import base numbers list.

Local Open Scope Qc_scope.

(** ** Errors *)

Inductive error : Type :=
| IndexError
| RuntimeError
| ValueError
| TypeError
| AssertionError
| OutOfFuel.        (* not a Python exception: a loop of the model ran out of fuel *)

Inductive result (A : Type) : Type :=
| Ok (a : A)
| Raise (e : error).
Arguments Ok {A} a.
Arguments Raise {A} e.

Definition is_ok {A} (r : result A) : bool :=
  match r with Ok _ => true | Raise _ => false end.

#[global] Instance result_ret : MRet result := fun A a => Ok a.
#[global] Instance result_bind : MBind result := fun A B f m =>
  match m with Ok a => f a | Raise e => Raise e end.

Definition of_option {A} (e : error) (o : option A) : result A :=
  match o with Some a => Ok a | None => Raise e end.

#[global] Instance error_eq_dec : EqDecision error.
Proof. solve_decision. Defined.
#[global] Instance result_eq_dec {A} `{EqDecision A} : EqDecision (result A).
Proof. solve_decision. Defined.

(** ** Tensors *)

Module Torch.

Abbreviation vec := (list Qc).          (* shape [B] or [H] *)
Abbreviation mat := (list (list Qc)).   (* shape [B, H] or [B, T] *)

Record tensor3 : Type := Tensor3 {
  size3 : nat * nat * nat;          (* hidden.size() *)
  data3 : list (list (list Qc))     (* data3 !! b !! t !! j *)
}.

#[global] Instance tensor3_eq_dec : EqDecision tensor3.
Proof. solve_decision. Defined.

Definition Qcgeb (x y : Qc) : bool := Qle_bool y x.

(** The rational [n / d], for literals. *)
Definition q (n : Z) (d : positive) : Qc := Q2Qc (n # d).

Definition zeros (n : nat) : vec := replicate n 0.
Definition ones (n : nat) : vec := replicate n 1.
Definition zeros2 (n m : nat) : mat := replicate n (zeros m).

Definition vadd (u v : vec) : vec := zip_with Qcplus u v.
Definition vsub (u v : vec) : vec := zip_with Qcminus u v.
Definition madd (a b : mat) : mat := zip_with vadd a b.

(** [c * v] for a scalar [c]. *)
Definition scale (c : Qc) (v : vec) : vec := map (Qcmult c) v.

(** [w[:, None] * m]: row [b] of [m] scaled by [w[b]]. *)
Definition scale_rows (w : vec) (m : mat) : mat := zip_with scale w m.

(** [torch.where(c, x, y)], elementwise. *)
Definition where_ {A} (c : list bool) (x y : list A) : list A :=
  zip_with (fun (b : bool) (xy : A * A) => if b then xy.1 else xy.2) c (zip x y).

(** [x >= threshold] against the one-element threshold tensor. *)
Definition ge_threshold (x : vec) (threshold : Qc) : list bool :=
  map (fun v => Qcgeb v threshold) x.

(** [m[:, t]] inside the scripted [cif]: raises when [t] is out of range. *)
Definition col {A} (t : nat) (m : list (list A)) : result (list A) :=
  of_option RuntimeError (mapM (fun row : list A => row !! t) m).

(** [torch.stack(l, 1)] of tensors whose first axis is the batch:
    entry [b] of the result lists entry [b] of every element of [l].
    An empty list is refused. *)
Definition stack1 {A} (d : A) (l : list (list A)) : result (list (list A)) :=
  match l with
  | [] => Raise RuntimeError
  | v :: _ => Ok (map (fun b => map (fun w => nth b w d) l) (seq 0 (length v)))
  end.

(** [x[mask]] for a boolean mask along the first axis: the entries where the
    mask is true, in order. *)
Fixpoint select {A} (mask : list bool) (x : list A) : list A :=
  match mask, x with
  | m :: mask', a :: x' => if m then a :: select mask' x' else select mask' x'
  | _, _ => []
  end.

(** [x[:n] = new] where [n] is the length of [new]. *)
Definition assign_prefix {A} (new old : list A) : list A :=
  new ++ drop (length new) old.

(** [torch.cat([x, y], dim=1)]: the batch sizes have to agree. *)
Definition cat1 {A} (x y : list (list A)) : result (list (list A)) :=
  if (length x =? length y)%nat then Ok (zip_with app x y) else Raise RuntimeError.

(** [x.sum(dim=-1)] of a (B, T) tensor. *)
Definition sum_last (x : mat) : vec := map (foldr Qcplus 0) x.

(** [lengths.max()]: refused on an empty tensor. *)
Definition max_of (lengths : list nat) : result nat :=
  match lengths with
  | [] => Raise RuntimeError
  | _ => Ok (max_list lengths)
  end.

(** [sequence_mask] (lines 9-17): entry (b, t) is 1 when [t] is below
    [lengths[b]], else 0. *)
Definition sequence_mask (lengths : list nat) (maxlen : option nat) : result mat :=
  maxlen' ← match maxlen with
             | None => max_of lengths
             | Some n => Ok n
             end;
  let row_vector := seq 0 maxlen' in
  Ok (map (fun l => map (fun t => if (t <? l)%nat then 1 else 0) row_vector) lengths).

(** [sequence_mask_scripts] (lines 19-23), the same mask for a given width. *)
Definition sequence_mask_scripts (lengths : list nat) (maxlen : nat) : mat :=
  let row_vector := seq 0 maxlen in
  map (fun l => map (fun t => if (t <? l)%nat then 1 else 0) row_vector) lengths.

End Torch.
Export Torch.

(** ** The store of tensors updated in place *)

Module Store.

Record store : Type := MkStore {
  vecs : list vec;
  mats : list mat
}.

Definition empty : store := MkStore [] [].

(** Computations that read and write the store and may raise. *)
Definition M (A : Type) : Type := store -> result (A * store).

Definition ret {A} (a : A) : M A := fun s => Ok (a, s).
Definition bind {A B} (m : M A) (f : A -> M B) : M B := fun s =>
  match m s with
  | Ok (a, s') => f a s'
  | Raise e => Raise e
  end.
Definition lift {A} (r : result A) : M A := fun s =>
  match r with Ok a => Ok (a, s) | Raise e => Raise e end.

(** A new tensor object. *)
Definition new_vec (v : vec) : M nat := fun s =>
  Ok (length (vecs s), MkStore (vecs s ++ [v]) (mats s)).
Definition new_mat (m : mat) : M nat := fun s =>
  Ok (length (mats s), MkStore (vecs s) (mats s ++ [m])).

Definition get_vec (r : nat) : M vec := fun s =>
  match vecs s !! r with Some v => Ok (v, s) | None => Raise RuntimeError end.
Definition get_mat (r : nat) : M mat := fun s =>
  match mats s !! r with Some m => Ok (m, s) | None => Raise RuntimeError end.

(** [x += a]: the object named by [r] changes, and with it every alias. *)
Definition iadd_vec (r : nat) (a : vec) : M unit := fun s =>
  match vecs s !! r with
  | Some v => Ok (tt, MkStore (<[r := vadd v a]> (vecs s)) (mats s))
  | None => Raise RuntimeError
  end.
Definition iadd_mat (r : nat) (a : mat) : M unit := fun s =>
  match mats s !! r with
  | Some m => Ok (tt, MkStore (vecs s) (<[r := madd m a]> (mats s)))
  | None => Raise RuntimeError
  end.

(** Reading a Python list of tensor objects. *)
Fixpoint get_vecs (rs : list nat) : M (list vec) :=
  match rs with
  | [] => ret []
  | r :: rs' => bind (get_vec r) (fun v => bind (get_vecs rs') (fun vs => ret (v :: vs)))
  end.
Fixpoint get_mats (rs : list nat) : M (list mat) :=
  match rs with
  | [] => ret []
  | r :: rs' => bind (get_mat r) (fun m => bind (get_mats rs') (fun ms => ret (m :: ms)))
  end.

End Store.

#[global] Instance store_ret : MRet Store.M := @Store.ret.
#[global] Instance store_bind : MBind Store.M := fun A B f m => Store.bind m f.

(** ** [cif] *)

Module Cif.
Import Store.

(** The variables of the time loop: [integrate] and [frame] name tensor
    objects, the two lists hold the objects appended so far. *)
Record loop_vars : Type := LoopVars {
  integrate : nat;
  frame : nat;
  list_fires : list nat;
  list_frames : list nat
}.

Section WithInput.
Variables (hidden : tensor3) (alphas : mat) (threshold : Qc).

Definition batch_size : nat := (size3 hidden).1.1.
Definition len_time : nat := (size3 hidden).1.2.
Definition hidden_size : nat := (size3 hidden).2.

(** Lines 133-137. *)
Definition cif_init : M loop_vars :=
  i ← new_vec (zeros batch_size);
  f ← new_mat (zeros2 batch_size hidden_size);
  mret (LoopVars i f [] []).

(** One iteration of the loop of lines 139-159.  The sums, differences and
    products are those of the code in the order of the code, without the
    rounding of the dtype; [CifLaws.rounded_row] relates the accumulator to
    its rounded run. *)
Definition cif_body (t : nat) (vs : loop_vars) : M loop_vars :=
  alpha ← lift (col t alphas);
  i0 ← get_vec (integrate vs);
  let distribution_completion := vsub (ones batch_size) i0 in
  iadd_vec (integrate vs) alpha ;;
  let list_fires' := list_fires vs ++ [integrate vs] in
  i1 ← get_vec (integrate vs);
  let fire_place := ge_threshold i1 threshold in
  integrate' ← new_vec (where_ fire_place (vsub i1 (ones batch_size)) i1);
  let cur := where_ fire_place distribution_completion alpha in
  let remainds := vsub alpha cur in
  hidden_t ← lift (col t (data3 hidden));
  iadd_mat (frame vs) (scale_rows cur hidden_t) ;;
  let list_frames' := list_frames vs ++ [frame vs] in
  f1 ← get_mat (frame vs);
  frame' ← new_mat (where_ fire_place (scale_rows remainds hidden_t) f1);
  mret (LoopVars integrate' frame' list_fires' list_frames').

(** [for t in range(len_time)], from step [t] on. *)
Fixpoint cif_loop (n t : nat) (vs : loop_vars) : M loop_vars :=
  match n with
  | O => mret vs
  | S n' => vs' ← cif_body t vs; cif_loop n' (S t) vs'
  end.

(** The state after the first [k] iterations. *)
Definition cif_run (k : nat) : result (loop_vars * store) :=
  (vs ← cif_init; cif_loop k 0 vs) Store.empty.

(** The loop of lines 167-173 over the batch, from element [b] on. *)
Fixpoint gather (frames : list mat) (fire_idxs : list (list bool))
    (n b : nat) (frame_fires : list mat) (max_label_len : nat)
    : result (list mat * nat) :=
  match n with
  | O => Ok (frame_fires, max_label_len)
  | S n' =>
      frames_b ← of_option RuntimeError (frames !! b);
      idx_b ← of_option RuntimeError (fire_idxs !! b);
      let frame_fire := select idx_b frames_b in
      let frame_len := length frame_fire in
      row ← of_option RuntimeError (frame_fires !! b);
      let frame_fires' := <[b := assign_prefix frame_fire row]> frame_fires in
      let max_label_len' :=
        if (max_label_len <=? frame_len)%nat then frame_len else max_label_len in
      gather frames fire_idxs n' (S b) frame_fires' max_label_len'
  end.

(** Lines 161-175. *)
Definition cif_finish (vs : loop_vars) : M (list mat * mat) :=
  fire_vals ← get_vecs (list_fires vs);
  frame_vals ← get_mats (list_frames vs);
  lift (
    fires ← stack1 0 fire_vals;
    frames ← stack1 [] frame_vals;
    let fire_idxs := map (fun row => ge_threshold row threshold) fires in
    let frame_fires := replicate batch_size (zeros2 len_time hidden_size) in
    frames_0 ← of_option RuntimeError (frames !! 0%nat);
    idx_0 ← of_option RuntimeError (fire_idxs !! 0%nat);
    let max_label_len := length (select idx_0 frames_0) in
    '(frame_fires, max_label_len) ←
       gather frames fire_idxs batch_size 0 frame_fires max_label_len;
    Ok (map (take max_label_len) frame_fires, fires)).

Definition cif : result (list mat * mat) :=
  match (vs ← cif_init; vs' ← cif_loop len_time 0 vs; cif_finish vs') Store.empty with
  | Ok (out, _) => Ok out
  | Raise e => Raise e
  end.

(** The value of the variable [integrate] after [k] iterations. *)
Definition integrate_after (k : nat) : result vec :=
  '(vs, s) ← cif_run k;
  of_option RuntimeError (vecs s !! integrate vs).


(** The frame history: the values of the entries of [list_frames] when the
    loop has ended.  Entry [t] is the (B, H) tensor recorded at step [t]. *)
Definition frame_history : result (list mat) :=
  '(vs, s) ← cif_run len_time;
  '(vals, _) ← get_mats (list_frames vs) s;
  Ok vals.

End WithInput.

(** *** One batch element, as the specification describes it

    [hs] are the frames of one batch element and [al] its alphas.  These
    definitions follow steps 2a-2f of the description of the algorithm; the
    theorems below show that the batched loop computes them. *)

Section Row.
Variables (H : nat) (threshold : Qc) (hs : list vec) (al : list Qc).

Definition alpha_at (t : nat) : Qc := nth t al 0.
Definition frame_at (t : nat) : vec := nth t hs [].

(** The accumulator after [k] steps. *)
Fixpoint row_integrate (k : nat) : Qc :=
  match k with
  | O => 0
  | S k' =>
      let p := row_integrate k' + alpha_at k' in
      if Qcgeb p threshold then p - 1 else p
  end.

(** The fire trace at step [t]: the accumulator after the add, before the reset. *)
Definition row_fire (t : nat) : Qc := row_integrate t + alpha_at t.

Definition fired (t : nat) : bool := Qcgeb (row_fire t) threshold.

(** The mass that step [t] contributes to the token in progress, and the rest. *)
Definition row_cur (t : nat) : Qc :=
  if fired t then 1 - row_integrate t else alpha_at t.
Definition row_remainds (t : nat) : Qc := alpha_at t - row_cur t.

(** The frame accumulator after [k] steps. *)
Fixpoint row_frame (k : nat) : vec :=
  match k with
  | O => zeros H
  | S k' =>
      if fired k' then scale (row_remainds k') (frame_at k')
      else vadd (row_frame k') (scale (row_cur k') (frame_at k'))
  end.

(** The frame history at step [t]. *)
Definition row_record (t : nat) : vec :=
  vadd (row_frame t) (scale (row_cur t) (frame_at t)).

End Row.

(** The positions of a fire trace that reach the threshold, in time order. *)
Definition fire_positions (threshold : Qc) (trace : list Qc) : list nat :=
  filter (fun t => Qcgeb (nth t trace 0) threshold = true) (seq 0 (length trace)).

(** Shape consistency of the input of [cif]: [hidden] is (B, T, H) and
    [alphas] is (B, T). *)
Definition shape3 (B T H : nat) (x : list (list (list Qc))) : Prop :=
  length x = B /\ Forall (fun row => length row = T /\ Forall (fun f => length f = H) row) x.
Definition shape2 {A} (B T : nat) (x : list (list A)) : Prop :=
  length x = B /\ Forall (fun row => length row = T) x.
Definition wf_input (B T H : nat) (hidden : tensor3) (alphas : mat) : Prop :=
  size3 hidden = (B, T, H) /\ shape3 B T H (data3 hidden) /\ shape2 B T alphas.

End Cif.

(** ** [CifPredictorV2.tail_process_fn] *)

Module Predictor.

(** The hyperparameters the wrapper copies from the trained model; the
    convolution and the projection of [forward] play no part in
    [tail_process_fn]. *)
Record CifPredictorV2 : Type := {
  threshold : Qc;
  smooth_factor : Qc;
  noise_threshold : Qc;
  tail_threshold : Qc
}.

(** Lines 60-77.  [token_num_floor] holds integers, given here as [Z]. *)
Definition tail_process_fn (self : CifPredictorV2)
    (hidden : tensor3) (alphas : mat) (mask : mat)
    : result (tensor3 * mat * list Z) :=
  let '(b, t, d) := size3 hidden in
  let zeros_t : mat := replicate b [0] in
  let ones_t : mat := replicate b [1] in
  mask_1 ← cat1 mask zeros_t;
  mask_2 ← cat1 ones_t mask;
  let mask' := zip_with vsub mask_2 mask_1 in
  let tail_threshold' := map (map (fun m => m * tail_threshold self)) mask' in
  alphas' ← cat1 alphas tail_threshold';
  let zeros_f : list mat := replicate b [zeros d] in
  hidden' ← cat1 (data3 hidden) zeros_f;
  let token_num := sum_last alphas' in
  let token_num_floor := map (fun x : Qc => Qfloor x) token_num in
  Ok (Tensor3 (b, (t + 1)%nat, d) hidden', alphas', token_num_floor).

End Predictor.

(** ** [CifPredictorV2.forward] *)

Module PredictorForward.
Import Cif Predictor.

(** [torch.relu]. *)
Definition relu (x : Qc) : Qc := if Qcgeb x 0 then x else 0.

(** [x.transpose(1, 2)] of one batch element with [n] columns: row [j] of
    the result is column [j]. *)
Definition transpose_to (n : nat) (m : mat) : mat :=
  map (fun j => map (fun row => nth j row 0) m) (seq 0 n).

(** The same when the number of columns is read off the first row. *)
Definition transpose_rows (m : mat) : mat :=
  match m with
  | [] => []
  | row :: _ => transpose_to (length row) m
  end.

(** Two lists combined entry by entry; refused when their lengths differ. *)
Fixpoint zip_exact {A B C} (f : A -> B -> option C) (l : list A) (k : list B)
    : option (list C) :=
  match l, k with
  | [], [] => Some []
  | a :: l', b :: k' => c ← f a b; cs ← zip_exact f l' k'; Some (c :: cs)
  | _, _ => None
  end.

(** [x * y] for two tensors of one shape with three axes. *)
Definition mul3 (x y : list mat) : result (list mat) :=
  of_option RuntimeError
    (zip_exact (zip_exact (zip_exact (fun a b : Qc => Some (a * b)))) x y).

(** [x.squeeze(-1)] of a tensor whose last axis has size 1.  With another
    last axis the tensor keeps three axes and the in-place add of [cif]
    refuses it; the model raises at once. *)
Definition squeeze_last (x : list mat) : result mat :=
  of_option RuntimeError
    (mapM (mapM (fun v : vec => match v with [a] => Some a | _ => None end)) x).

Section Forward.

(** The modules of the trained model, [self.pad], [self.cif_conv1d] and
    [self.cif_output], as functions on tensors with three axes, and
    [torch.sigmoid]. *)
Variables (pad cif_conv1d cif_output : list mat -> list mat).
Variable sigmoid : Qc -> Qc.

(** Lines 40-46: the value of [output] before the sigmoid. *)
Definition cif_logits (hidden : tensor3) : list mat :=
  let h := data3 hidden in
  let context := map (transpose_to (hidden_size hidden)) h in
  let queries := pad context in
  let output := map (map (map relu)) (cif_conv1d queries) in
  let output := map transpose_rows output in
  cif_output output.

(** Lines 47-48 at one entry. *)
Definition alpha_of (self : CifPredictorV2) (x : Qc) : Qc :=
  relu (sigmoid x * smooth_factor self - noise_threshold self).

(** Lines 37-58.  [mask] has shape (B, 1, T). *)
Definition forward (self : CifPredictorV2) (hidden : tensor3) (mask : list mat)
    : result (list mat * vec * mat * mat) :=
  let output := cif_logits hidden in
  let alphas := map (map (map (alpha_of self))) output in
  let mask := map transpose_rows mask in
  alphas ← mul3 alphas mask;
  alphas ← squeeze_last alphas;
  let token_num := sum_last alphas in
  '(acoustic_embeds, cif_peak) ← cif hidden alphas (threshold self);
  Ok (acoustic_embeds, token_num, alphas, cif_peak).

End Forward.
End PredictorForward.

(** ** [ESPnetPunctuationModel] *)

Module Punctuation.

(** What [nll] returns: a one-dimensional tensor in evaluation mode, a
    (B, L) tensor in training mode. *)
Inductive tensor : Type :=
| Tensor1 (v : vec)
| Tensor2 (m : mat).

#[global] Instance tensor_eq_dec : EqDecision tensor.
Proof. solve_decision. Defined.

Section Model.

(** [Logits] is the unnormalised distribution over the classes that the
    injected network returns for one position; the three functions below
    are those of PyTorch and scikit-learn that read it.
    - [nll_at x c] is the cross entropy of [x] against the class [c]; it
      raises when [c] is not a class.
    - [top1 x] is the class [topk(1)] selects.
    - [f1_score_micro y_true y_pred] is [sklearn.metrics.f1_score] with
      [average='micro']. *)
Context {Logits : Type}.
Variable nll_at : Logits -> Z -> result Qc.
Variable top1 : Logits -> Z.
Variable f1_score_micro : list Z -> list Z -> Qc.

Record ESPnetPunctuationModel : Type := {
  punc_model : list (list Z) -> list nat -> result (list (list Logits));
  sos : Z;
  eos : Z;
  ignore_id : Z;
  training : bool
}.

Fixpoint traverse {A B} (f : A -> result B) (l : list A) : result (list B) :=
  match l with
  | [] => Ok []
  | a :: l' => b ← f a; bs ← traverse f l'; Ok (b :: bs)
  end.

(** [x[:, :n]]. *)
Definition slice_cols {A} (n : nat) (x : list (list A)) : list (list A) :=
  map (take n) x.

(** [x[:, :n].view(-1)] for a contiguous [x]: the slice shares the storage
    of [x] and keeps its row stride, and [view] accepts it only when its
    entries are evenly spaced in the storage, that is when no column was
    cut, when there is at most one row, or when at most one column is left
    (a slice of width 1 is the column read with the row stride). *)
Definition view_flat_slice {A} (n : nat) (x : list (list A)) : result (list A) :=
  if forallb (fun row => (length row <=? n)%nat) x
     || (length x <=? 1)%nat || (n <=? 1)%nat
  then Ok (concat (slice_cols n x))
  else Raise RuntimeError.

(** [F.cross_entropy(input, target, reduction="none", ignore_index=i)]. *)
Definition cross_entropy (input : list Logits) (target : list Z) (ignore_index : Z)
    : result vec :=
  if (length input =? length target)%nat then
    traverse (fun xc : Logits * Z =>
                if (xc.2 =? ignore_index)%Z then Ok 0 else nll_at xc.1 xc.2)
             (zip input target)
  else Raise ValueError.

(** Modelled from the spec: [funasr.modules.nets_utils.make_pad_mask] is not
    among the sources.  The mask is derived from the lengths and marks the
    positions beyond each sequence's true length: entry (b, t) is true when
    [t] is at or beyond [lengths[b]]; its width is [maxlen], by default the
    largest length. *)
Definition make_pad_mask (lengths : list nat) (maxlen : option nat) : list (list bool) :=
  let width := match maxlen with Some n => n | None => max_list lengths end in
  map (fun l => map (fun t => (l <=? t)%nat) (seq 0 width)) lengths.

(** [x.masked_fill_(mask, value)] on one-dimensional tensors: the mask has
    the size of [x] or a single element. *)
Definition masked_fill (x : vec) (mask : list bool) (value : Qc) : result vec :=
  if (length mask =? length x)%nat then
    Ok (zip_with (fun (m : bool) v => if m then value else v) mask x)
  else
    match mask with
    | [m] => Ok (map (fun v => if m then value else v) x)
    | _ => Raise RuntimeError
    end.

(** [x.view(batch_size, -1)] of a one-dimensional tensor. *)
Definition view_rows {A} (batch_size : nat) (x : list A) : result (list (list A)) :=
  match batch_size with
  | O => Raise RuntimeError
  | S _ =>
      if (length x mod batch_size =? 0)%nat then
        let w := (length x / batch_size)%nat in
        Ok (map (fun b => take w (drop (b * w) x)) (seq 0 batch_size))
      else Raise RuntimeError
  end.

(** Lines 44-86. *)
Definition nll (self : ESPnetPunctuationModel)
    (text punc : list (list Z)) (text_lengths punc_lengths : list nat)
    (max_length : option nat) : result (tensor * list nat) :=
  let batch_size := length text in
  n ← match max_length with
       | None => max_of text_lengths
       | Some m => Ok m
       end;
  let text' := slice_cols n text in
  y ← punc_model self text' text_lengths;
  if negb (training self) then
    let indices := map top1 (concat y) in
    target ← view_flat_slice n punc;
    if (length target =? length indices)%nat then
      let f1 := f1_score_micro target indices in
      Ok (Tensor1 (replicate (sum_list text_lengths) f1), text_lengths)
    else Raise ValueError
  else
    target ← view_flat_slice n punc;
    nll ← cross_entropy (concat y) target (ignore_id self);
    let mask :=
      match max_length with
      | None => make_pad_mask text_lengths None
      | Some m => make_pad_mask text_lengths (Some (m + 1)%nat)
      end in
    nll ← masked_fill nll (concat mask) 0;
    nll ← view_rows batch_size nll;
    Ok (Tensor2 nll, text_lengths).

(** A call of [nll]: [punc_lengths] has no default value, a call that does
    not pass it raises. *)
Definition call_nll (self : ESPnetPunctuationModel)
    (text punc : list (list Z)) (text_lengths : list nat)
    (punc_lengths : option (list nat)) (max_length : option nat)
    : result (tensor * list nat) :=
  match punc_lengths with
  | None => Raise TypeError
  | Some pl => nll self text punc text_lengths pl max_length
  end.

(** [torch.cat] of the chunk results along the batch axis: the tensors have
    the same number of axes and, when they have two, the same width. *)
Definition same_width (m w : mat) : bool :=
  match m, w with
  | r :: _, r' :: _ => (length r =? length r')%nat
  | _, _ => true
  end.

Fixpoint cat0 (ts : list tensor) : result tensor :=
  match ts with
  | [] => Raise RuntimeError
  | [t] => Ok t
  | Tensor1 v :: ts' =>
      r ← cat0 ts';
      match r with Tensor1 w => Ok (Tensor1 (v ++ w)) | Tensor2 _ => Raise RuntimeError end
  | Tensor2 m :: ts' =>
      r ← cat0 ts';
      match r with
      | Tensor2 w => if same_width m w then Ok (Tensor2 (m ++ w)) else Raise RuntimeError
      | Tensor1 _ => Raise RuntimeError
      end
  end.

Definition size0 (t : tensor) : nat :=
  match t with Tensor1 v => length v | Tensor2 m => length m end.

(** The loop of lines 115-126; [fuel] bounds the number of chunks. *)
Fixpoint batchify_loop (self : ESPnetPunctuationModel)
    (text punc : list (list Z)) (text_lengths : list nat)
    (batch_size total_num max_length : nat)
    (fuel start_idx : nat) (nlls : list tensor) (x_lengths : list (list nat))
    : result (list tensor * list (list nat)) :=
  match fuel with
  | O => Raise OutOfFuel
  | S fuel' =>
      let end_idx := Nat.min (start_idx + batch_size) total_num in
      let batch_text := take (end_idx - start_idx) (drop start_idx text) in
      let batch_punc := take (end_idx - start_idx) (drop start_idx punc) in
      let batch_text_lengths := take (end_idx - start_idx) (drop start_idx text_lengths) in
      '(batch_nll, batch_x_lengths) ←
        call_nll self batch_text batch_punc batch_text_lengths None (Some max_length);
      let nlls' := nlls ++ [batch_nll] in
      let x_lengths' := x_lengths ++ [batch_x_lengths] in
      if (end_idx =? total_num)%nat then Ok (nlls', x_lengths')
      else batchify_loop self text punc text_lengths batch_size total_num max_length
             fuel' end_idx nlls' x_lengths'
  end.

(** Lines 106-131. *)
Definition batchify_nll (self : ESPnetPunctuationModel)
    (text punc : list (list Z)) (text_lengths punc_lengths : list nat)
    (batch_size : nat) : result (tensor * list nat) :=
  let total_num := length text in
  '(nll, x_lengths) ←
    (if (total_num <=? batch_size)%nat then
       call_nll self text punc text_lengths None None
     else
       max_length ← max_of text_lengths;
       '(nlls, x_lengths) ←
         batchify_loop self text punc text_lengths batch_size total_num max_length
           (S total_num) 0 [] [];
       nll ← cat0 nlls;
       Ok (nll, concat x_lengths));
  if (size0 nll =? total_num)%nat then
    if (length x_lengths =? total_num)%nat then Ok (nll, x_lengths)
    else Raise AssertionError
  else Raise AssertionError.

End Model.

Arguments ESPnetPunctuationModel Logits : clear implicits.

End Punctuation.

(** ** [ESPnetPunctuationModel.forward] *)

Module PunctuationForward.
Import Punctuation.

(** The result of a floating-point division: a number, or [nan] or an
    infinity when the divisor is zero. *)
Inductive scalar : Type := Finite (x : Qc) | NotFinite.

(** [dict(loss=...)]. *)
Record stats : Type := Stats { loss : scalar }.

(** [t.sum()]. *)
Definition tensor_sum (t : tensor) : Qc :=
  match t with
  | Tensor1 v => foldr Qcplus 0 v
  | Tensor2 m => foldr Qcplus 0 (concat m)
  end.

(** [x / n] for a float [x] and an integer tensor [n]. *)
Definition true_divide (x : Qc) (n : nat) : scalar :=
  if (n =? 0)%nat then NotFinite else Finite (x / Q2Qc (inject_Z (Z.of_nat n))).

Section Model.
Context {Logits : Type}.
Variable nll_at : Logits -> Z -> result Qc.
Variable top1 : Logits -> Z.
Variable f1_score_micro : list Z -> list Z -> Qc.

(** [funasr.torch_utils.device_funcs.force_gatherable] is a library
    function outside this file; [forward] hands it the triple it has built
    and returns what it answers. *)
Variable force_gatherable : scalar * stats * nat -> scalar * stats * nat.

(** Lines 133-142. *)
Definition forward (self : ESPnetPunctuationModel Logits)
    (text punc : list (list Z)) (text_lengths punc_lengths : list nat)
    : result (scalar * stats * nat) :=
  '(nll, y_lengths) ← nll nll_at top1 f1_score_micro self text punc text_lengths punc_lengths None;
  let ntokens := sum_list y_lengths in
  let loss := true_divide (tensor_sum nll) ntokens in
  let stats := Stats loss in
  Ok (force_gatherable (loss, stats, ntokens)).

End Model.
End PunctuationForward.

(** * Facts about the tensor operations *)

Module TorchFacts.

Ltac qc_lra :=
  unfold Qcle, Qclt, Qcminus, Qcopp, Qcplus, Qcmult, Q2Qc in *; simpl this in *;
  repeat match goal with
  | H : context [Qred ?x] |- _ => rewrite (Qred_correct x) in H
  | |- context [Qred ?x] => rewrite (Qred_correct x)
  end; lra.

Lemma Qcgeb_true (x y : Qc) : Qcgeb x y = true <-> (y <= x)%Qc.
Proof. unfold Qcgeb. now rewrite Qle_bool_iff. Qed.

Lemma Qcgeb_false (x y : Qc) : Qcgeb x y = false <-> (x < y)%Qc.
Proof.
  rewrite <- Bool.not_true_iff_false, Qcgeb_true. split.
  - apply Qcnot_le_lt.
  - apply Qclt_not_le.
Qed.

Section Pointwise.
Context {X : Type} (l : list X).

Lemma zip_with_map2 {A B C} (f : A -> B -> C) (g : X -> A) (h : X -> B) :
  zip_with f (map g l) (map h l) = map (fun x => f (g x) (h x)) l.
Proof. induction l as [|x l' IH]; simpl; [done | by rewrite IH]. Qed.

Lemma replicate_as_map {A} (c : A) : replicate (length l) c = map (fun _ => c) l.
Proof. induction l as [|x l' IH]; simpl; [done | by rewrite IH]. Qed.

Lemma vadd_map (g h : X -> Qc) :
  vadd (map g l) (map h l) = map (fun x => g x + h x) l.
Proof. apply zip_with_map2. Qed.

Lemma vsub_map (g h : X -> Qc) :
  vsub (map g l) (map h l) = map (fun x => g x - h x) l.
Proof. apply zip_with_map2. Qed.

Lemma madd_map (g h : X -> vec) :
  madd (map g l) (map h l) = map (fun x => vadd (g x) (h x)) l.
Proof. apply zip_with_map2. Qed.

Lemma scale_rows_map (g : X -> Qc) (h : X -> vec) :
  scale_rows (map g l) (map h l) = map (fun x => scale (g x) (h x)) l.
Proof. apply zip_with_map2. Qed.

Lemma ge_threshold_map (g : X -> Qc) thr :
  ge_threshold (map g l) thr = map (fun x => Qcgeb (g x) thr) l.
Proof. unfold ge_threshold. by rewrite map_map. Qed.

Lemma where_map {A} (c : X -> bool) (g h : X -> A) :
  where_ (map c l) (map g l) (map h l) = map (fun x => if c x then g x else h x) l.
Proof.
  unfold where_. induction l as [|x l' IH]; simpl; [done | by rewrite IH].
Qed.

Lemma col_map {A} (g : X -> list A) (d : A) t :
  Forall (fun x => t < length (g x))%nat l ->
  col t (map g l) = Ok (map (fun x => nth t (g x) d) l).
Proof.
  unfold col. intros Hall.
  assert (mapM (fun row : list A => row !! t) (map g l)
          = Some (map (fun x => nth t (g x) d) l)) as ->; [|done].
  induction Hall as [|x l' Hx Hall IH]; simpl; [done|].
  rewrite IH. simpl.
  destruct (nth_lookup_or_length (g x) t d) as [Hl|?]; [|lia].
  by rewrite Hl.
Qed.

(** Row [b] of a stack collects entry [b] of every stacked tensor. *)
Lemma stack_rows {A} (d : A) (g : nat -> X -> A) (ts : list nat) (dx : X) :
  map (fun b => map (fun w => nth b w d) (map (fun t => map (g t) l) ts))
      (seq 0 (length l))
  = map (fun x => map (fun t => g t x) ts) l.
Proof.
  transitivity (map (fun b => map (fun t => g t (nth b l dx)) ts) (seq 0 (length l))).
  - apply map_ext_in. intros b Hb%in_seq. rewrite map_map.
    apply map_ext. intros t.
    rewrite (nth_indep _ d (g t dx)) by (rewrite length_map; lia).
    by rewrite map_nth.
  - rewrite <- (map_map (fun b => nth b l dx) (fun x => map (fun t => g t x) ts)).
    f_equal. apply nth_ext with (d := dx) (d' := dx).
    + by rewrite length_map, length_seq.
    + intros n Hn. rewrite length_map, length_seq in Hn.
      rewrite (nth_indep _ dx (nth 0 l dx)) by (rewrite length_map, length_seq; lia).
      rewrite (map_nth (fun b => nth b l dx)). by rewrite seq_nth.
Qed.

Lemma stack1_map {A} (d : A) (g : nat -> X -> A) (ts : list nat) (dx : X) :
  ts <> [] ->
  stack1 d (map (fun t => map (g t) l) ts)
  = Ok (map (fun x => map (fun t => g t x) ts) l).
Proof.
  intros Hne. destruct ts as [|t0 ts]; [done|].
  rewrite <- (stack_rows d g (t0 :: ts) dx).
  unfold stack1. cbn [map]. by rewrite length_map.
Qed.

End Pointwise.

Lemma select_map {A} (c : nat -> bool) (g : nat -> A) (ts : list nat) :
  select (map c ts) (map g ts) = map g (filter (fun t => c t = true) ts).
Proof.
  induction ts as [|t ts IH]; simpl; [done|].
  rewrite filter_cons. destruct (c t) eqn:E.
  - rewrite decide_True by done. simpl. by rewrite IH.
  - rewrite decide_False by congruence. done.
Qed.

Lemma vadd_zeros_l (n : nat) (v : vec) : length v = n -> vadd (zeros n) v = v.
Proof.
  intros <-. unfold vadd, zeros. induction v as [|x v IH]; simpl; [done|].
  rewrite IH. f_equal. ring.
Qed.

Lemma length_scale (c : Qc) (v : vec) : length (scale c v) = length v.
Proof. unfold scale. apply length_map. Qed.

Lemma vadd_scale_0_l (u v : vec) :
  length u = length v -> vadd (scale 0 u) v = v.
Proof.
  unfold vadd, scale. revert v. induction u as [|x u IH]; intros [|y v] Hl; try done.
  simpl in *. rewrite IH by lia. f_equal. ring.
Qed.

Lemma filter_none {A} (P : A -> Prop) `{!forall x, Decision (P x)} (l : list A) :
  (forall x, x ∈ l -> ~ P x) -> filter P l = [].
Proof.
  induction l as [|x l IH]; intros Hnone; [done|].
  rewrite filter_cons_False by (apply Hnone; by left).
  apply IH. intros y Hy. apply Hnone. by right.
Qed.

Lemma max_list_all_zero (ns : list nat) :
  (forall n, n ∈ ns -> n = 0%nat) -> max_list ns = 0%nat.
Proof.
  induction ns as [|n ns IH]; intros Hz; [done|]. simpl.
  rewrite (Hz n) by (by left). rewrite IH; [done|].
  intros m Hm. apply Hz. by right.
Qed.

Lemma filter_ext_elem {A} (P1 P2 : A -> Prop)
    `{!forall x, Decision (P1 x)} `{!forall x, Decision (P2 x)} (l : list A) :
  (forall x, x ∈ l -> P1 x <-> P2 x) -> filter P1 l = filter P2 l.
Proof.
  induction l as [|x l IH]; intros Hext; [done|].
  rewrite !filter_cons.
  rewrite IH by (intros y Hy; apply Hext; by right).
  destruct (decide (P1 x)) as [H1|H1], (decide (P2 x)) as [H2|H2]; try done.
  - apply Hext in H1; [done | by left].
  - apply Hext in H2; [done | by left].
Qed.

End TorchFacts.

(** * The time loop of [cif] computes the per-element recursion *)

Module CifLoop.
Import Store Cif TorchFacts.

(** With threshold 1, non-negative alphas and post-add values below 2, the
    accumulator of one batch element stays in [0, 1). *)
Lemma row_integrate_bounds (al : list Qc) (k : nat) :
  Forall (fun a => 0 <= a) al ->
  (forall t, (t < k)%nat -> row_fire 1 al t < 2) ->
  0 <= row_integrate 1 al k /\ row_integrate 1 al k < 1.
Proof.
  intros Hal. induction k as [|k IH]; intros Hfire.
  - simpl. split; qc_lra.
  - destruct IH as [IH0 IH1]; [intros t Ht; apply Hfire; lia|].
    specialize (Hfire k (Nat.lt_succ_diag_r k)). unfold row_fire in Hfire.
    assert (0 <= alpha_at al k) as Ha.
    { unfold alpha_at. destruct (nth_in_or_default k al 0) as [Hin| ->].
      - rewrite Forall_forall in Hal. apply Hal. by apply list_elem_of_In.
      - qc_lra. }
    simpl. destruct (Qcgeb _ _) eqn:E.
    + apply Qcgeb_true in E. split; qc_lra.
    + apply Qcgeb_false in E. split; qc_lra.
Qed.

(** All-zero alphas never fire under a positive threshold. *)
Lemma row_all_zero (threshold : Qc) (al : list Qc) (k : nat) :
  0 < threshold -> Forall (fun a => a = 0) al ->
  row_integrate threshold al k = 0
  /\ row_fire threshold al k = 0
  /\ fired threshold al k = false.
Proof.
  intros Hthr Hal.
  assert (forall t, alpha_at al t = 0) as Ha.
  { intros t. unfold alpha_at. destruct (nth_in_or_default t al 0) as [Hin|]; [|done].
    rewrite Forall_forall in Hal. apply Hal. by apply list_elem_of_In. }
  assert (Qcgeb 0 threshold = false) as Hz by (by apply Qcgeb_false).
  assert (forall j, row_integrate threshold al j = 0) as Hi.
  { induction j as [|j IH]; [done|]. simpl. rewrite IH, Ha.
    replace (0 + 0) with 0 by ring. by rewrite Hz. }
  unfold fired, row_fire. rewrite Hi, Ha.
  replace (0 + 0) with 0 by ring. done.
Qed.

Section Loop.
Variables (hidden : tensor3) (alphas : mat) (threshold : Qc).
Variables (B T H : nat).
Hypothesis Hwf : wf_input B T H hidden alphas.

(** Batch element [b] is the pair of its frames and its alphas. *)
Definition rows : list (list vec * vec) := zip (data3 hidden) alphas.

Definition integrate_val (k : nat) : vec :=
  map (fun r => row_integrate threshold r.2 k) rows.
Definition frame_val (k : nat) : mat :=
  map (fun r => row_frame H threshold r.1 r.2 k) rows.
Definition fire_val (t : nat) : vec :=
  map (fun r => row_fire threshold r.2 t) rows.
Definition record_val (t : nat) : mat :=
  map (fun r => row_record H threshold r.1 r.2 t) rows.

(** What holds of the store and the loop variables after [k] iterations. *)
Record loop_inv (k : nat) (vs : loop_vars) (s : store) : Prop := LoopInv {
  inv_integrate : vecs s !! integrate vs = Some (integrate_val k);
  inv_frame : mats s !! frame vs = Some (frame_val k);
  inv_fires :
    Forall2 (fun r t => vecs s !! r = Some (fire_val t)) (list_fires vs) (seq 0 k);
  inv_frames :
    Forall2 (fun r t => mats s !! r = Some (record_val t)) (list_frames vs) (seq 0 k);
  inv_integrate_fresh : integrate vs ∉ list_fires vs;
  inv_frame_fresh : frame vs ∉ list_frames vs
}.

Lemma size_batch : batch_size hidden = B.
Proof. destruct Hwf as [Hs _]. unfold batch_size. by rewrite Hs. Qed.
Lemma size_time : len_time hidden = T.
Proof. destruct Hwf as [Hs _]. unfold len_time. by rewrite Hs. Qed.
Lemma size_hidden : hidden_size hidden = H.
Proof. destruct Hwf as [Hs _]. unfold hidden_size. by rewrite Hs. Qed.

Lemma length_rows : length rows = B.
Proof.
  destruct Hwf as (_ & [Hh _] & [Ha _]). unfold rows.
  rewrite length_zip_with. lia.
Qed.

Lemma rows_fst : map fst rows = data3 hidden.
Proof.
  destruct Hwf as (_ & [Hh _] & [Ha _]). unfold rows.
  apply fst_zip. lia.
Qed.

Lemma rows_snd : map snd rows = alphas.
Proof.
  destruct Hwf as (_ & [Hh _] & [Ha _]). unfold rows.
  apply snd_zip. lia.
Qed.

Lemma rows_time : Forall (fun r => length r.1 = T /\ length r.2 = T) rows.
Proof.
  destruct Hwf as (_ & [Hh Hh'] & [Ha Ha']). unfold rows.
  apply Forall_forall. intros [hs al] Hin.
  pose proof (elem_of_zip_l _ _ _ _ Hin) as Hl. pose proof (elem_of_zip_r _ _ _ _ Hin) as Hr.
  rewrite Forall_forall in Hh'. rewrite Forall_forall in Ha'. simpl.
  split; [by apply Hh' | by apply Ha'].
Qed.

Lemma rows_frames : Forall (fun r => Forall (fun f => length f = H) r.1) rows.
Proof.
  destruct Hwf as (_ & [Hh Hh'] & _). unfold rows.
  apply Forall_forall. intros [hs al] Hin.
  pose proof (elem_of_zip_l _ _ _ _ Hin) as Hl.
  rewrite Forall_forall in Hh'. by apply Hh'.
Qed.

Lemma col_alphas t :
  (t < T)%nat -> col t alphas = Ok (map (fun r => alpha_at r.2 t) rows).
Proof.
  intros Ht. rewrite <- rows_snd. apply col_map.
  eapply Forall_impl; [apply rows_time|]. simpl. intros r [_ ->]. done.
Qed.

Lemma col_hidden t :
  (t < T)%nat -> col t (data3 hidden) = Ok (map (fun r => frame_at r.1 t) rows).
Proof.
  intros Ht. rewrite <- rows_fst. apply col_map.
  eapply Forall_impl; [apply rows_time|]. simpl. intros r [-> _]. done.
Qed.

Lemma ones_rows : ones (batch_size hidden) = map (fun _ => 1) rows.
Proof. rewrite size_batch, <- length_rows. apply replicate_as_map. Qed.

Lemma loop_inv_init :
  exists vs s, cif_init hidden Store.empty = Ok (vs, s) /\ loop_inv 0 vs s.
Proof.
  eexists _, _. split; [reflexivity|]. simpl.
  rewrite size_batch, size_hidden.
  split; simpl; try constructor; try apply not_elem_of_nil.
  - unfold integrate_val, zeros. rewrite <- length_rows. f_equal.
    apply replicate_as_map.
  - unfold frame_val, zeros2. rewrite <- length_rows. f_equal.
    apply replicate_as_map.
Qed.

Lemma Forall2_lookup_lt {A} (st : list A) (rs : list nat) (ts : list nat) (v : nat -> A) :
  Forall2 (fun r t => st !! r = Some (v t)) rs ts ->
  Forall (fun r => r < length st)%nat rs.
Proof.
  induction 1 as [|r t rs ts Hr _ IH]; constructor; [|done].
  by eapply lookup_lt_Some.
Qed.

(** Recording an object and then replacing the loop variable by a new
    object keeps every recorded value. *)
Lemma record_step {A} (st : list A) (rs : list nat) (k i : nat) (v : nat -> A) (x y : A) :
  Forall2 (fun r t => st !! r = Some (v t)) rs (seq 0 k) ->
  i ∉ rs -> (i < length st)%nat -> x = v k ->
  let st' := (<[i := x]> st) ++ [y] in
  Forall2 (fun r t => st' !! r = Some (v t)) (rs ++ [i]) (seq 0 (S k))
  /\ (length (<[i := x]> st) ∉ rs ++ [i])
  /\ st' !! length (<[i := x]> st) = Some y.
Proof.
  intros Hrec Hfresh Hi -> st'. subst st'.
  pose proof (Forall2_lookup_lt _ _ _ _ Hrec) as Hlt.
  split; [|split].
  - rewrite seq_S. apply Forall2_app.
    +       clear Hlt. induction Hrec as [|r t rs ts Hr Hrec IH]; constructor.
      * apply not_elem_of_cons in Hfresh as [Hne _].
        rewrite lookup_app_l.
        -- by rewrite list_lookup_insert_ne.
        -- rewrite length_insert. by eapply lookup_lt_Some.
      * apply IH. by apply not_elem_of_cons in Hfresh as [_ ?].
    + constructor; [|constructor]. simpl.
      rewrite lookup_app_l by (by rewrite length_insert).
      by apply list_lookup_insert_eq.
  - rewrite length_insert. intros [Hin|Hin%list_elem_of_singleton]%elem_of_app.
    + rewrite Forall_forall in Hlt. specialize (Hlt _ Hin). lia.
    + lia.
  - by rewrite lookup_app_r, Nat.sub_diag.
Qed.

Lemma loop_inv_body k vs s :
  (k < T)%nat -> loop_inv k vs s ->
  exists vs' s', cif_body hidden alphas threshold k vs s = Ok (vs', s')
    /\ loop_inv (S k) vs' s'.
Proof.
  intros Hk [Hi Hf Hfs Hfrs Hni Hnf].
  unfold cif_body, mbind, store_bind, Store.bind, lift.
  rewrite (col_alphas k Hk), (col_hidden k Hk).
  unfold get_vec, iadd_vec, new_vec, get_mat, iadd_mat, new_mat.
  assert (integrate vs < length (vecs s))%nat as Hil by (by eapply lookup_lt_Some).
  assert (frame vs < length (mats s))%nat as Hfl by (by eapply lookup_lt_Some).
  rewrite Hi. cbn [vecs mats]. rewrite Hi. cbn [vecs mats].
  rewrite list_lookup_insert_eq by done. cbn [vecs mats].
  rewrite Hf. cbn [vecs mats].
  rewrite list_lookup_insert_eq by done. cbn [vecs mats].
  eexists _, _. split; [reflexivity|].
  unfold integrate_val, frame_val in *.
  rewrite ones_rows, !vadd_map, !vsub_map, ge_threshold_map.
  rewrite !where_map, !vsub_map, !scale_rows_map, madd_map, !where_map.
  pose proof (record_step (vecs s) (list_fires vs) k (integrate vs) fire_val
                (fire_val k) (integrate_val (S k)) Hfs Hni Hil eq_refl)
    as (Hfs' & Hni' & Hi').
  pose proof (record_step (mats s) (list_frames vs) k (frame vs) record_val
                (record_val k) (frame_val (S k)) Hfrs Hnf Hfl eq_refl)
    as (Hfrs' & Hnf' & Hf').
  split; cbn [integrate frame list_fires list_frames vecs mats].
  - exact Hi'.
  - exact Hf'.
  - exact Hfs'.
  - exact Hfrs'.
  - exact Hni'.
  - exact Hnf'.
Qed.

Lemma loop_inv_loop n t vs s :
  (t + n <= T)%nat -> loop_inv t vs s ->
  exists vs' s', cif_loop hidden alphas threshold n t vs s = Ok (vs', s')
    /\ loop_inv (t + n) vs' s'.
Proof.
  revert t vs s. induction n as [|n IH]; intros t vs s Hle Hinv.
  - exists vs, s. rewrite Nat.add_0_r. done.
  - destruct (loop_inv_body t vs s) as (vs1 & s1 & Hbody & Hinv1); [lia | done |].
    destruct (IH (S t) vs1 s1) as (vs2 & s2 & Hloop & Hinv2); [lia | done |].
    exists vs2, s2. split.
    + cbn [cif_loop]. unfold mbind, store_bind, Store.bind. by rewrite Hbody.
    + by replace (t + S n)%nat with (S t + n)%nat by lia.
Qed.

(** The loop never raises on a shape-consistent input, and after [k]
    iterations the invariant holds. *)
Lemma cif_run_inv k :
  (k <= T)%nat ->
  exists vs s, cif_run hidden alphas threshold k = Ok (vs, s) /\ loop_inv k vs s.
Proof.
  intros Hk. destruct loop_inv_init as (vs0 & s0 & Hinit & Hinv0).
  destruct (loop_inv_loop k 0 vs0 s0) as (vs & s & Hloop & Hinv); [lia | done |].
  exists vs, s. split; [|done].
  unfold cif_run, mbind, store_bind, Store.bind. by rewrite Hinit.
Qed.

Lemma get_vecs_recorded (s : store) (rs ts : list nat) (v : nat -> vec) :
  Forall2 (fun r t => vecs s !! r = Some (v t)) rs ts ->
  get_vecs rs s = Ok (map v ts, s).
Proof.
  induction 1 as [|r t rs ts Hr _ IH]; [done|].
  cbn [get_vecs map]. unfold Store.bind, get_vec. by rewrite Hr, IH.
Qed.

Lemma get_mats_recorded (s : store) (rs ts : list nat) (v : nat -> mat) :
  Forall2 (fun r t => mats s !! r = Some (v t)) rs ts ->
  get_mats rs s = Ok (map v ts, s).
Proof.
  induction 1 as [|r t rs ts Hr _ IH]; [done|].
  cbn [get_mats map]. unfold Store.bind, get_mat. by rewrite Hr, IH.
Qed.

(** *** After the loop *)

Definition firing (r : mat * vec) : list nat :=
  filter (fun t => fired threshold r.2 t = true) (seq 0 T).
Definition tokens_of (r : mat * vec) : mat :=
  map (row_record H threshold r.1 r.2) (firing r).
Definition max_fires : nat := max_list (map (fun r => length (firing r)) rows).

Definition fires_out : mat :=
  map (fun r => map (fun t => row_fire threshold r.2 t) (seq 0 T)) rows.
Definition frames_out : list mat :=
  map (fun r => map (fun t => row_record H threshold r.1 r.2 t) (seq 0 T)) rows.
Definition tokens_out : list mat :=
  map (fun r => tokens_of r ++ replicate (max_fires - length (firing r)) (zeros H)) rows.

Lemma length_firing r : (length (firing r) <= T)%nat.
Proof.
  unfold firing. etransitivity; [apply length_filter|]. by rewrite length_seq.
Qed.

Lemma select_frames r :
  select (ge_threshold (map (fun t => row_fire threshold r.2 t) (seq 0 T)) threshold)
         (map (fun t => row_record H threshold r.1 r.2 t) (seq 0 T))
  = tokens_of r.
Proof.
  rewrite ge_threshold_map.
  apply (select_map (fun t => fired threshold r.2 t)
                    (fun t => row_record H threshold r.1 r.2 t)).
Qed.

Definition gathered (r : mat * vec) : mat :=
  assign_prefix (tokens_of r) (zeros2 T H).

Lemma gather_rows n b m :
  (b + n = length rows)%nat ->
  gather frames_out (map (fun row => ge_threshold row threshold) fires_out) n b
    (map gathered (take b rows) ++ replicate n (zeros2 T H)) m
  = Ok (map gathered rows,
        Nat.max m (max_list (map (fun r => length (firing r)) (drop b rows)))).
Proof.
  revert b m. induction n as [|n IH]; intros b m Hb.
  - cbn [gather replicate]. rewrite app_nil_r.
    rewrite take_ge, drop_ge by lia. simpl. by rewrite Nat.max_0_r.
  - cbn [gather].
    destruct (lookup_lt_is_Some_2 rows b) as [r Hr]; [lia|].
    unfold frames_out, fires_out. rewrite !list_lookup_fmap, Hr. simpl.
    rewrite lookup_app_r by (rewrite length_map, length_take; lia).
    rewrite length_map, length_take, Nat.min_l, Nat.sub_diag by lia. simpl.
    rewrite select_frames.
    replace (<[b:=assign_prefix (tokens_of r) (zeros2 T H)]>
               (map gathered (take b rows) ++ zeros2 T H :: replicate n (zeros2 T H)))
      with (map gathered (take (S b) rows) ++ replicate n (zeros2 T H)).
    + fold frames_out fires_out. rewrite IH by lia.
      rewrite (drop_S _ _ _ Hr). simpl. f_equal. f_equal.
      unfold tokens_of. rewrite length_map.
      destruct (Nat.leb_spec m (length (firing r))); lia.
    + rewrite (take_S_r _ _ _ Hr), map_app. simpl.
      rewrite <- app_assoc. simpl.
      rewrite insert_app_r_alt by (rewrite length_map, length_take; lia).
      rewrite length_map, length_take, Nat.min_l, Nat.sub_diag by lia. done.
Qed.

Lemma max_fires_ge r : r ∈ rows -> (length (firing r) <= max_fires)%nat.
Proof.
  intros Hr. unfold max_fires.
  apply max_list_elem_of_le, list_elem_of_fmap. by exists r.
Qed.

Lemma max_fires_le : (max_fires <= T)%nat.
Proof.
  unfold max_fires. induction rows as [|r l IH]; simpl; [lia|].
  pose proof (length_firing r). lia.
Qed.

Lemma take_gathered r :
  r ∈ rows ->
  take max_fires (gathered r)
  = tokens_of r ++ replicate (max_fires - length (firing r)) (zeros H).
Proof.
  intros Hr. pose proof (max_fires_ge r Hr) as Hle. pose proof max_fires_le as HT.
  unfold gathered, assign_prefix, tokens_of, zeros2.
  rewrite length_map, drop_replicate.
  rewrite take_app_ge by (rewrite length_map; lia).
  rewrite length_map, take_replicate. f_equal. f_equal. lia.
Qed.

(** The value of [cif] on a shape-consistent input with a non-empty batch
    and a non-empty time axis. *)
Lemma cif_value :
  (0 < B)%nat -> (0 < T)%nat ->
  cif hidden alphas threshold = Ok (tokens_out, fires_out).
Proof.
  intros HB HT.
  destruct (cif_run_inv T) as (vs & s & Hrun & Hinv); [lia|].
  unfold cif_run, mbind, store_bind, Store.bind in Hrun.
  unfold cif, mbind, store_bind, Store.bind. rewrite size_time.
  destruct (cif_init hidden Store.empty) as [[vs0 s0]|]; [|done].
  rewrite Hrun. unfold cif_finish, mbind, store_bind, Store.bind.
  rewrite (get_vecs_recorded _ _ _ _ (inv_fires _ _ _ Hinv)).
  rewrite (get_mats_recorded _ _ _ _ (inv_frames _ _ _ Hinv)).
  unfold fire_val, record_val, lift, mbind, result_bind.
  assert (seq 0 T <> []) as Hne by (destruct T; [lia | done]).
  rewrite (stack1_map rows 0 (fun t r => row_fire threshold r.2 t) _ ([], []) Hne).
  rewrite (stack1_map rows [] (fun t r => row_record H threshold r.1 r.2 t) _ ([], []) Hne).
  fold fires_out frames_out.
  destruct (lookup_lt_is_Some_2 rows 0) as [r0 Hr0]; [rewrite length_rows; lia|].
  unfold frames_out at 1, fires_out at 1. rewrite !list_lookup_fmap, Hr0. simpl.
  rewrite select_frames, size_batch, size_time, size_hidden.
  pose proof (gather_rows B 0 (length (tokens_of r0))) as Hg.
  rewrite take_0, drop_0 in Hg. simpl in Hg. rewrite Hg by (by rewrite length_rows).
  fold max_fires. f_equal. f_equal.
  replace (Nat.max (length (tokens_of r0)) max_fires) with max_fires.
  - unfold tokens_out. rewrite map_map. apply map_ext_in.
    intros r Hr%list_elem_of_In. by apply take_gathered.
  - assert (length (firing r0) <= max_fires)%nat.
    { apply max_fires_ge. by eapply list_elem_of_lookup_2. }
    unfold tokens_of. rewrite length_map. lia.
Qed.

Lemma cif_empty_time :
  T = 0%nat -> cif hidden alphas threshold = Raise RuntimeError.
Proof.
  intros HT.
  destruct (cif_run_inv 0) as (vs & s & Hrun & Hinv); [lia|].
  unfold cif_run, mbind, store_bind, Store.bind in Hrun.
  unfold cif, mbind, store_bind, Store.bind. rewrite size_time, HT.
  destruct (cif_init hidden Store.empty) as [[vs0 s0]|]; [|done].
  rewrite Hrun. unfold cif_finish, mbind, store_bind, Store.bind.
  rewrite (get_vecs_recorded _ _ _ _ (inv_fires _ _ _ Hinv)).
  rewrite (get_mats_recorded _ _ _ _ (inv_frames _ _ _ Hinv)).
  done.
Qed.

Lemma integrate_after_value k :
  (k <= T)%nat -> integrate_after hidden alphas threshold k = Ok (integrate_val k).
Proof.
  intros Hk. destruct (cif_run_inv k Hk) as (vs & s & Hrun & Hinv).
  unfold integrate_after. rewrite Hrun. simpl.
  by rewrite (inv_integrate _ _ _ Hinv).
Qed.


Lemma frame_history_value :
  frame_history hidden alphas threshold = Ok (map record_val (seq 0 T)).
Proof.
  destruct (cif_run_inv T) as (vs & s & Hrun & Hinv); [lia|].
  unfold frame_history. rewrite size_time, Hrun. simpl.
  by rewrite (get_mats_recorded _ _ _ _ (inv_frames _ _ _ Hinv)).
Qed.

(** Reading entry [b] of a per-element tensor. *)
Lemma nth_rows {A} (f : mat * vec -> A) (d : A) b :
  (b < B)%nat -> nth b (map f rows) d = f (nth b rows ([], [])).
Proof.
  intros Hb. rewrite (nth_indep _ d (f ([], []))) by (rewrite length_map, length_rows; lia).
  apply map_nth.
Qed.

Lemma nth_rows_alphas b : (nth b rows ([], [])).2 = nth b alphas [].
Proof. rewrite <- rows_snd. symmetry. apply (map_nth snd rows ([], []) b). Qed.

Lemma nth_rows_hidden b : (nth b rows ([], [])).1 = nth b (data3 hidden) [].
Proof. rewrite <- rows_fst. symmetry. apply (map_nth fst rows ([], []) b). Qed.

Lemma nth_steps {A} (f : nat -> A) (d : A) t :
  (t < T)%nat -> nth t (map f (seq 0 T)) d = f t.
Proof.
  intros Ht. rewrite (nth_indep _ d (f 0%nat)) by (rewrite length_map, length_seq; lia).
  rewrite map_nth. by rewrite seq_nth.
Qed.

Lemma nth_rows_elem b : (b < B)%nat -> nth b rows ([], []) ∈ rows.
Proof.
  intros Hb. apply nth_elem_of. rewrite length_rows. lia.
Qed.

Lemma length_row_frame r k :
  r ∈ rows -> (k <= T)%nat -> length (row_frame H threshold r.1 r.2 k) = H.
Proof.
  intros Hr. pose proof rows_time as Ht. pose proof rows_frames as Hf.
  rewrite Forall_forall in Ht. rewrite Forall_forall in Hf.
  specialize (Ht r Hr) as [Ht _]. specialize (Hf r Hr).
  assert (forall t, (t < T)%nat -> length (frame_at r.1 t) = H) as Hfr.
  { intros t Hlt. unfold frame_at. rewrite Forall_forall in Hf. apply Hf.
    apply nth_elem_of. lia. }
  induction k as [|k IH]; intros Hk.
  - simpl. unfold zeros. by rewrite length_replicate.
  - simpl. destruct (fired _ _ _).
    + unfold scale. rewrite length_map. apply Hfr. lia.
    + unfold vadd, scale. rewrite length_zip_with, length_map, IH, Hfr by lia. lia.
Qed.

Lemma length_row_record r t :
  r ∈ rows -> (t < T)%nat -> length (row_record H threshold r.1 r.2 t) = H.
Proof.
  intros Hr Ht. pose proof (length_row_frame r (S t) Hr Ht) as Hl.
  pose proof (length_row_frame r t Hr (Nat.lt_le_incl _ _ Ht)) as Hl0.
  unfold row_record. simpl in Hl. destruct (fired _ _ _); [|done].
  unfold vadd, scale in *. rewrite length_zip_with, length_map in *. lia.
Qed.

Lemma cif_empty_batch :
  B = 0%nat -> (0 < T)%nat -> cif hidden alphas threshold = Raise RuntimeError.
Proof.
  intros HB HT.
  destruct (cif_run_inv T) as (vs & s & Hrun & Hinv); [lia|].
  unfold cif_run, mbind, store_bind, Store.bind in Hrun.
  unfold cif, mbind, store_bind, Store.bind. rewrite size_time.
  destruct (cif_init hidden Store.empty) as [[vs0 s0]|]; [|done].
  rewrite Hrun. unfold cif_finish, mbind, store_bind, Store.bind.
  rewrite (get_vecs_recorded _ _ _ _ (inv_fires _ _ _ Hinv)).
  rewrite (get_mats_recorded _ _ _ _ (inv_frames _ _ _ Hinv)).
  unfold fire_val, record_val, lift, mbind, result_bind.
  assert (seq 0 T <> []) as Hne by (destruct T; [lia | done]).
  rewrite (stack1_map rows 0 (fun t r => row_fire threshold r.2 t) _ ([], []) Hne).
  rewrite (stack1_map rows [] (fun t r => row_record H threshold r.1 r.2 t) _ ([], []) Hne).
  pose proof length_rows as Hl. rewrite HB in Hl.
  apply nil_length_inv in Hl. rewrite Hl. done.
Qed.

(** [cif] returns exactly when the batch and the time axis are non-empty. *)
Lemma cif_ok_inv out :
  cif hidden alphas threshold = Ok out ->
  (0 < B)%nat /\ (0 < T)%nat /\ out = (tokens_out, fires_out).
Proof.
  intros Hcif.
  destruct (decide (T = 0%nat)) as [HT|HT].
  { rewrite cif_empty_time in Hcif; done. }
  destruct (decide (B = 0%nat)) as [HB|HB].
  { rewrite cif_empty_batch in Hcif; [done | done | lia]. }
  rewrite cif_value in Hcif by lia. split; [lia|]. split; [lia|]. congruence.
Qed.

Lemma nth_fires_out t b :
  (t < T)%nat -> (b < B)%nat ->
  nth t (nth b fires_out []) 0 = row_fire threshold (nth b alphas []) t.
Proof.
  intros Ht Hb. unfold fires_out.
  rewrite nth_rows by done. rewrite nth_steps by done. by rewrite nth_rows_alphas.
Qed.

Lemma nth_integrate_val k b :
  (b < B)%nat ->
  nth b (integrate_val k) 0 = row_integrate threshold (nth b alphas []) k.
Proof.
  intros Hb. unfold integrate_val. rewrite nth_rows by done. by rewrite nth_rows_alphas.
Qed.

Lemma length_integrate_val k : length (integrate_val k) = B.
Proof. unfold integrate_val. by rewrite length_map, length_rows. Qed.

End Loop.
End CifLoop.

(** * [cif]: the fire trace and the token embeddings *)

Module CifSpec.
Import Store Cif TorchFacts CifLoop.



(** Concrete inputs for the examples: two batch elements, three frames of
    hidden size one. *)
Definition hidden_2x3 : tensor3 :=
  Tensor3 (2, 3, 1)%nat
    [[[q 1 1]; [q 3 1]; [q 5 1]]; [[q 7 1]; [q 8 1]; [q 9 1]]].
Definition alphas_2x3 : mat :=
  [[q 1 2; q 1 2; q 1 1]; [q 1 4; q 1 4; q 1 4]].

Lemma wf_2x3 : wf_input 2 3 1 hidden_2x3 alphas_2x3.
Proof. repeat split; repeat constructor. Defined.


(** C4.  The token embeddings have shape (B, M, H) where [M] is the largest
    number of positions of a row of the fire trace that reach the threshold;
    row [b] lists, in time order, the entries of the frame history of
    element [b] at its firing positions, followed by zero vectors only. *)
Theorem cif_token_embeddings hidden alphas threshold B T H :
  wf_input B T H hidden alphas -> (0 < B)%nat -> (0 < T)%nat ->
  exists tokens fires history,
    cif hidden alphas threshold = Ok (tokens, fires)
    /\ frame_history hidden alphas threshold = Ok history
    /\ let count := fun b => length (fire_positions threshold (nth b fires [])) in
       let max_fires_in_batch :=
         max_list (map (fun trace => length (fire_positions threshold trace)) fires) in
       shape3 B max_fires_in_batch H tokens
       /\ forall b, (b < B)%nat ->
            nth b tokens []
            = map (fun t => nth b (nth t history []) [])
                  (fire_positions threshold (nth b fires []))
              ++ replicate (max_fires_in_batch - count b) (zeros H).
Proof.
  intros Hwf HB HT.
  exists (tokens_out hidden alphas threshold T H), (fires_out hidden alphas threshold T),
         (map (record_val hidden alphas threshold H) (seq 0 T)).
  split; [by eapply cif_value|].
  split; [by eapply frame_history_value|].
  assert (forall r, r ∈ rows hidden alphas ->
    fire_positions threshold (map (fun t => row_fire threshold r.2 t) (seq 0 T))
    = firing threshold T r) as Hpos.
  { intros r Hr. unfold fire_positions, firing.
    rewrite length_map, length_seq.
    apply filter_ext_elem. intros t Ht%elem_of_seq.
    rewrite nth_steps by lia. done. }
  assert (max_list
            (map (fun trace => length (fire_positions threshold trace))
                 (fires_out hidden alphas threshold T))
          = max_fires hidden alphas threshold T) as HM.
  { unfold fires_out, max_fires. rewrite map_map. f_equal.
    apply map_ext_in. intros r Hr%list_elem_of_In. by rewrite Hpos. }
  cbv zeta. rewrite HM. split.
  - split.
    + unfold tokens_out. rewrite length_map. by eapply length_rows.
    + apply Forall_forall. intros row (r & -> & Hr)%list_elem_of_fmap.
      pose proof (max_fires_ge hidden alphas threshold T r Hr) as Hle.
      split.
      * unfold tokens_of. rewrite length_app, length_map, length_replicate. lia.
      * apply Forall_app. split.
        -- unfold tokens_of. apply Forall_forall.
           intros v (t & -> & Ht)%list_elem_of_fmap.
           eapply length_row_record; [exact Hwf | done |].
           unfold firing in Ht. apply list_elem_of_filter in Ht as [_ Ht%elem_of_seq]. lia.
        -- apply Forall_replicate. unfold zeros. by rewrite length_replicate.
  - intros b Hb. unfold tokens_out, fires_out.
    rewrite !(nth_rows hidden alphas B T H Hwf) by done.
    pose proof (nth_rows_elem hidden alphas B T H Hwf b Hb) as Hr.
    rewrite Hpos by done. f_equal. unfold tokens_of.
    apply map_ext_in. intros t Ht%list_elem_of_In.
    unfold firing in Ht. apply list_elem_of_filter in Ht as [_ Ht%elem_of_seq].
    rewrite (nth_indep _ [] (record_val hidden alphas threshold H 0))
      by (rewrite length_map, length_seq; lia).
    rewrite map_nth, seq_nth by lia. simpl. unfold record_val.
    by rewrite (nth_rows hidden alphas B T H Hwf) by done.
Qed.

Lemma cif_token_embeddings_witness :
  exists tokens fires history,
    cif hidden_2x3 alphas_2x3 1 = Ok (tokens, fires)
    /\ frame_history hidden_2x3 alphas_2x3 1 = Ok history
    /\ let count := fun b => length (fire_positions 1 (nth b fires [])) in
       let max_fires_in_batch :=
         max_list (map (fun trace => length (fire_positions 1 trace)) fires) in
       shape3 2 max_fires_in_batch 1 tokens
       /\ forall b, (b < 2)%nat ->
            nth b tokens []
            = map (fun t => nth b (nth t history []) [])
                  (fire_positions 1 (nth b fires []))
              ++ replicate (max_fires_in_batch - count b) (zeros 1).
Proof.
  apply (cif_token_embeddings hidden_2x3 alphas_2x3 1 2 3 1).
  - exact wf_2x3.
  - lia.
  - lia.
Defined.

(** C2, as the code has it.  On every step whose post-add value (the entry
    of the fire trace) reaches the threshold the accumulator becomes that
    value minus exactly 1, the constant of line 148, whatever the threshold
    is; on every other step it keeps the post-add value.  For threshold 1,
    non-negative alphas and post-add values below 2 (at most one firing per
    step) the accumulator is in [0, 1) after every frame. *)
Theorem cif_integrate_reset_by_one hidden alphas threshold B T H tokens fires :
  wf_input B T H hidden alphas ->
  cif hidden alphas threshold = Ok (tokens, fires) ->
  forall k, (k < T)%nat ->
  exists acc,
    integrate_after hidden alphas threshold (S k) = Ok acc
    /\ length acc = B
    /\ (forall b, (b < B)%nat ->
          let p := nth k (nth b fires []) 0 in
          nth b acc 0 = if Qcgeb p threshold then p - 1 else p)
    /\ (threshold = 1 ->
        Forall (Forall (fun a => 0 <= a)) alphas ->
        Forall (Forall (fun x => x < 2)) fires ->
        Forall (fun x => 0 <= x /\ x < 1) acc).
Proof.
  intros Hwf Hcif k Hk.
  destruct (cif_ok_inv hidden alphas threshold B T H Hwf _ Hcif) as (HB & HT & Hout).
  injection Hout as -> ->.
  exists (integrate_val hidden alphas threshold (S k)).
  split; [eapply integrate_after_value; [done | lia]|].
  split; [by eapply length_integrate_val|].
  split.
  - intros b Hb. cbv zeta.
    rewrite (nth_integrate_val hidden alphas threshold B T H Hwf) by done.
    rewrite (nth_fires_out hidden alphas threshold B T H Hwf) by done.
    reflexivity.
  - intros -> Hal Hfires. apply Forall_forall.
    intros x (r & -> & Hr)%list_elem_of_fmap.
    apply row_integrate_bounds.
    + rewrite Forall_forall in Hal. apply Hal.
      destruct r as [hs al]. by eapply elem_of_zip_r.
    + intros t Ht. rewrite Forall_forall in Hfires.
      assert (map (fun t => row_fire 1 r.2 t) (seq 0 T) ∈ fires_out hidden alphas 1 T) as Hrow.
      { unfold fires_out. apply list_elem_of_fmap. by exists r. }
      specialize (Hfires _ Hrow). rewrite Forall_forall in Hfires. apply Hfires.
      apply list_elem_of_fmap. exists t. split; [done|]. apply elem_of_seq. lia.
Qed.

Lemma cif_integrate_reset_by_one_witness :
  exists acc,
    integrate_after hidden_2x3 alphas_2x3 1 2 = Ok acc
    /\ length acc = 2%nat
    /\ (forall b, (b < 2)%nat ->
          let p := nth 1 (nth b [[q 1 2; q 1 1; q 1 1]; [q 1 4; q 1 2; q 3 4]] []) 0 in
          nth b acc 0 = if Qcgeb p 1 then p - 1 else p)
    /\ (1 = 1 ->
        Forall (Forall (fun a => 0 <= a)) alphas_2x3 ->
        Forall (Forall (fun x => x < 2)) [[q 1 2; q 1 1; q 1 1]; [q 1 4; q 1 2; q 3 4]] ->
        Forall (fun x => 0 <= x /\ x < 1) acc).
Proof.
  apply (cif_integrate_reset_by_one hidden_2x3 alphas_2x3 1 2 3 1
           [[[q 2 1]; [q 5 1]]; [[0]; [0]]]).
  - exact wf_2x3.
  - compute_done.
  - lia.
Defined.

(** The example batch has non-negative alphas, and its fire trace stays
    below 2: the premises of the invariant hold for it. *)
Example one_firing_per_step_2x3 :
  cif hidden_2x3 alphas_2x3 1
  = Ok ([[[q 2 1]; [q 5 1]]; [[0]; [0]]],
        [[q 1 2; q 1 1; q 1 1]; [q 1 4; q 1 2; q 3 4]])
  /\ Forall (Forall (fun a => 0 <= a)) alphas_2x3
  /\ Forall (Forall (fun x => x < 2)) [[q 1 2; q 1 1; q 1 1]; [q 1 4; q 1 2; q 3 4]]
  /\ integrate_after hidden_2x3 alphas_2x3 1 3 = Ok [0; q 3 4].
Proof. repeat split; compute_done. Qed.

(** C2 as stated fails for a threshold other than 1: with threshold 1/2 and
    the single alpha 3/4 the step fires once (3/4 is below twice the
    threshold), the accumulator becomes 3/4 - 1 = -1/4, which is negative
    and is not 3/4 minus the threshold. *)
Lemma cif_integrate_threshold_counterexample :
  let hidden := Tensor3 (1, 1, 1)%nat [[[1]]] in
  let alphas := [[q 3 4]] in
  let threshold := q 1 2 in
  wf_input 1 1 1 hidden alphas
  /\ 0 < threshold
  /\ Forall (Forall (fun a => 0 <= a)) alphas
  /\ cif hidden alphas threshold = Ok ([[[1]]], [[q 3 4]])
  /\ Forall (Forall (fun x => x < 2 * threshold)) [[q 3 4]]
  /\ integrate_after hidden alphas threshold 1 = Ok [q (-1) 4]
  /\ ~ Forall (fun x => 0 <= x /\ x < threshold) [q (-1) 4]
  /\ q (-1) 4 <> q 3 4 - threshold.
Proof.
  cbv zeta. split; [repeat split; repeat constructor|].
  repeat split; compute_done.
Qed.

(** C5.  One batch element with frames [f0], [f1], [f2], alphas
    [1/2; 1/2; 1] and threshold 1: the fire trace is [1/2; 1; 1], so exactly
    the steps 1 and 2 fire, and the two token embeddings are
    [1/2 * f0 + 1/2 * f1] and [1 * f2]. *)
Theorem cif_example_half_half_one (f0 f1 f2 : vec) (H : nat) :
  length f0 = H -> length f1 = H -> length f2 = H ->
  cif (Tensor3 (1, 3, H)%nat [[f0; f1; f2]]) [[q 1 2; q 1 2; 1]] 1
  = Ok ([[vadd (scale (q 1 2) f0) (scale (q 1 2) f1); scale 1 f2]],
        [[q 1 2; 1; 1]])
  /\ fire_positions 1 [q 1 2; 1; 1] = [1; 2]%nat.
Proof.
  intros H0 H1 H2. split; [|by vm_compute].
  set (al := [q 1 2; q 1 2; 1]).
  rewrite (cif_value _ _ 1 1 3 H); [| |lia|lia].
  2: { repeat split; repeat constructor; done. }
  assert (fired 1 al 0 = false) as E0 by (by vm_compute).
  assert (fired 1 al 1 = true) as E1 by (by vm_compute).
  assert (row_cur 1 al 0 = q 1 2) as C0 by compute_done.
  assert (row_cur 1 al 1 = q 1 2) as C1 by compute_done.
  assert (row_cur 1 al 2 = 1) as C2 by compute_done.
  assert (row_remainds 1 al 1 = 0) as R1 by compute_done.
  f_equal. f_equal.
  - unfold tokens_out, rows, max_fires. cbn [data3 zip zip_with map rows].
    change (firing 1 3 ([f0; f1; f2], al)) with [1; 2]%nat.
    unfold tokens_of.
    change (firing 1 3 ([f0; f1; f2], al)) with [1; 2]%nat.
    cbn [map length max_list foldr Nat.max Nat.sub replicate app fst snd].
    unfold row_record. cbn [row_frame fst snd].
    rewrite E0, E1, C0, C1, C2, R1.
    unfold frame_at. cbn [nth].
    rewrite vadd_zeros_l by (by rewrite length_scale).
    rewrite vadd_scale_0_l by (rewrite length_scale; congruence). done.
  - unfold fires_out, rows. cbn [data3 zip zip_with map seq snd].
    f_equal. compute_done.
Qed.

Lemma cif_example_half_half_one_witness :
  cif (Tensor3 (1, 3, 2)%nat [[[q 1 1; q 2 1]; [q 3 1; q 4 1]; [q 5 1; q 6 1]]])
      [[q 1 2; q 1 2; 1]] 1
  = Ok ([[vadd (scale (q 1 2) [q 1 1; q 2 1]) (scale (q 1 2) [q 3 1; q 4 1]);
          scale 1 [q 5 1; q 6 1]]],
        [[q 1 2; 1; 1]])
  /\ fire_positions 1 [q 1 2; 1; 1] = [1; 2]%nat.
Proof.
  apply (cif_example_half_half_one [q 1 1; q 2 1] [q 3 1; q 4 1] [q 5 1; q 6 1] 2);
    reflexivity.
Defined.

(** On a shape-consistent input [cif] returns exactly when the batch and
    the time axis are non-empty. *)
Theorem cif_returns_iff_nonempty hidden alphas threshold B T H :
  wf_input B T H hidden alphas ->
  is_ok (cif hidden alphas threshold) = true <-> (0 < B)%nat /\ (0 < T)%nat.
Proof.
  intros Hwf. split.
  - destruct (cif hidden alphas threshold) as [out|] eqn:Hcif; [|done]. intros _.
    destruct (cif_ok_inv hidden alphas threshold B T H Hwf _ Hcif) as (HB & HT & _).
    done.
  - intros [HB HT]. by rewrite (cif_value _ _ _ B T H).
Qed.

Lemma cif_returns_iff_nonempty_witness :
  is_ok (cif hidden_2x3 alphas_2x3 1) = true <-> (0 < 2)%nat /\ (0 < 3)%nat.
Proof.
  apply (cif_returns_iff_nonempty hidden_2x3 alphas_2x3 1 2 3 1).
  exact wf_2x3.
Defined.

(** C9, as the code has it.  For all-zero alphas of shape (B, T) with a
    non-empty batch, a non-empty time axis and a positive threshold [cif]
    returns an empty token dimension for every batch element and an all-zero
    fire trace.  With an empty time axis the lists of the loop are empty and
    [torch.stack] raises. *)
Theorem cif_degenerate_inputs hidden alphas threshold B T H :
  wf_input B T H hidden alphas ->
  0 < threshold ->
  Forall (Forall (fun a => a = 0)) alphas ->
  ((0 < B)%nat -> (0 < T)%nat ->
     cif hidden alphas threshold = Ok (replicate B [], replicate B (replicate T 0)))
  /\ (T = 0%nat -> cif hidden alphas threshold = Raise RuntimeError).
Proof.
  intros Hwf Hthr Hal. split; [|by eapply cif_empty_time].
  intros HB HT. rewrite (cif_value _ _ _ B T H) by done.
  assert (forall r, r ∈ rows hidden alphas -> Forall (fun a => a = 0) r.2) as Hz.
  { intros [hs al] Hr. rewrite Forall_forall in Hal. apply Hal. by eapply elem_of_zip_r. }
  assert (forall r, r ∈ rows hidden alphas -> firing threshold T r = []) as Hnone.
  { intros r Hr. unfold firing. apply filter_none. intros t _.
    destruct (row_all_zero threshold r.2 t Hthr (Hz r Hr)) as (_ & _ & ->). done. }
  assert (max_fires hidden alphas threshold T = 0%nat) as HM.
  { unfold max_fires. apply max_list_all_zero.
    intros n (r & -> & Hr)%list_elem_of_fmap. by rewrite Hnone. }
  f_equal. f_equal.
  - unfold tokens_out. rewrite HM.
    rewrite <- (length_rows hidden alphas B T H Hwf), replicate_as_map.
    apply map_ext_in. intros r Hr%list_elem_of_In.
    unfold tokens_of. by rewrite Hnone.
  - unfold fires_out.
    rewrite <- (length_rows hidden alphas B T H Hwf), replicate_as_map.
    apply map_ext_in. intros r Hr%list_elem_of_In.
    rewrite <- (length_seq T 0) at 2. rewrite replicate_as_map.
    apply map_ext. intros t.
    by destruct (row_all_zero threshold r.2 t Hthr (Hz r Hr)) as (_ & -> & _).
Qed.

Definition zero_alphas_2x3 : mat := [[0; 0; 0]; [0; 0; 0]].

Lemma cif_degenerate_inputs_witness :
  ((0 < 2)%nat -> (0 < 3)%nat ->
     cif hidden_2x3 zero_alphas_2x3 1 = Ok (replicate 2 [], replicate 2 (replicate 3 0)))
  /\ (3%nat = 0%nat -> cif hidden_2x3 zero_alphas_2x3 1 = Raise RuntimeError).
Proof.
  apply (cif_degenerate_inputs hidden_2x3 zero_alphas_2x3 1 2 3 1).
  - repeat split; repeat constructor.
  - reflexivity.
  - repeat constructor.
Defined.

(** C9 as stated fails on an empty time axis: for one batch element with no
    frame [cif] raises instead of returning an empty token dimension. *)
Lemma cif_zero_length_counterexample :
  let hidden := Tensor3 (1, 0, 1)%nat [[]] in
  let alphas : mat := [[]] in
  wf_input 1 0 1 hidden alphas
  /\ Forall (Forall (fun a => a = 0)) alphas
  /\ cif hidden alphas 1 = Raise RuntimeError
  /\ is_ok (cif hidden alphas 1) = false.
Proof.
  cbv zeta. split; [repeat split; repeat constructor|].
  split; [repeat constructor|]. split; reflexivity.
Qed.

End CifSpec.

(** * [tail_process_fn]: the shapes it returns *)

Module PredictorSpec.
Import Cif Predictor TorchFacts CifSpec.





(** The shifted mask difference of a row of [L] ones followed by zeros is
    the indicator of position [L]. *)
Lemma mask_difference_indicator (L n : nat) :
  vsub (1 :: (ones L ++ zeros n)) ((ones L ++ zeros n) ++ [0])
  = zeros L ++ 1 :: zeros n.
Proof.
  assert (forall k, zip_with Qcminus (replicate k 0) (replicate k 0) = replicate k 0) as Hzz.
  { induction k as [|k IHk]; simpl; [done|].
    rewrite IHk. by replace (0 - 0) with 0 by ring. }
  assert (forall k, replicate k (0 : Qc) ++ [0] = 0 :: replicate k 0) as Hend.
  { induction k as [|k IHk]; simpl; [done | by rewrite IHk]. }
  unfold vsub, ones, zeros. induction L as [|L IH].
  - cbn [replicate app]. rewrite Hend. cbn [zip_with]. rewrite Hzz.
    by replace (1 - 0) with 1 by ring.
  - cbn [replicate app].
    change (zip_with ?f (?a :: ?l) (?b :: ?k)) with (f a b :: zip_with f l k).
    rewrite IH. by replace (1 - 1) with 0 by ring.
Qed.

Lemma scale_mask_indicator (c : Qc) (L n : nat) :
  map (fun m : Qc => m * c) (zeros L ++ 1 :: zeros n) = zeros L ++ c :: zeros n.
Proof.
  assert (forall k, map (fun m : Qc => m * c) (replicate k 0) = replicate k 0) as Hz.
  { induction k as [|k IHk]; simpl; [done|].
    rewrite IHk. by replace (0 * c) with 0 by ring. }
  unfold zeros. rewrite map_app. cbn [map]. rewrite !Hz.
  by replace (1 * c) with c by ring.
Qed.

(** A row of [sequence_mask] is [L] ones followed by zeros. *)
Lemma sequence_mask_row (L n : nat) :
  sequence_mask [L] (Some (L + n)%nat) = Ok [ones L ++ zeros n].
Proof.
  unfold sequence_mask. cbn [mbind result_bind map]. do 2 f_equal.
  rewrite seq_app, map_app. unfold ones, zeros. f_equal.
  - rewrite <- (length_seq L 0) at 2. rewrite replicate_as_map.
    apply map_ext_in. intros t Ht%in_seq.
    destruct (Nat.ltb_spec t L); [done | lia].
  - rewrite <- (length_seq n (0 + L)) at 2. rewrite replicate_as_map.
    apply map_ext_in. intros t Ht%in_seq.
    destruct (Nat.ltb_spec t L); [lia | done].
Qed.

(** What [tail_process_fn] returns for one element of true length [L]
    padded to [L + n] frames: the frames and one zero frame, and the input
    alphas followed by the indicator of position [L] times the tail
    threshold.  With [L + n] alphas the tail threshold lands at position
    [L + n + L], not at position [L]. *)
Lemma tail_process_fn_row (self : CifPredictorV2) (hs : mat) (al : vec) (L n d : nat) :
  tail_process_fn self (Tensor3 (1, L + n, d)%nat [hs]) [al] [ones L ++ zeros n]
  = Ok (Tensor3 (1, L + n + 1, d)%nat [hs ++ [zeros d]],
        [al ++ zeros L ++ tail_threshold self :: zeros n],
        [Qfloor (foldr Qcplus 0 (al ++ zeros L ++ tail_threshold self :: zeros n))]).
Proof.
  unfold tail_process_fn. cbn [size3 data3 replicate].
  unfold cat1. cbn [length Nat.eqb zip_with mbind result_bind app map sum_last].
  change ([1] ++ (ones L ++ zeros n)) with (1 :: (ones L ++ zeros n)).
  rewrite mask_difference_indicator, scale_mask_indicator. reflexivity.
Qed.

Definition predictor_045 : CifPredictorV2 :=
  {| threshold := 1; smooth_factor := 1; noise_threshold := 0;
     tail_threshold := q 45 100 |}.


(** C1 at a batch of one element with one frame, alpha 3/4 and a full mask:
    [hidden'] has two time steps, [alphas'] has three entries, the input
    alpha followed by the two entries of the mask difference times the tail
    threshold.  The two results do not share a time length, and the tail
    threshold is not at position 1 of [alphas']. *)
Theorem tail_process_fn_alphas_longer_than_hidden :
  tail_process_fn predictor_045 (Tensor3 (1, 1, 1)%nat [[[q 7 1]]]) [[q 3 4]] [[1]]
  = Ok (Tensor3 (1, 2, 1)%nat [[[q 7 1]; [0]]], [[q 3 4; 0; q 45 100]], [1%Z]).
Proof. compute_done. Qed.

End PredictorSpec.

(** * [nll] and [batchify_nll] *)

Module PunctuationSpec.
Import Punctuation TorchFacts.

Lemma zip_with_concat {A B C} (f : A -> B -> C) (x : list (list A)) (y : list (list B)) :
  Forall2 (fun r r' => length r = length r') x y ->
  zip_with f (concat x) (concat y) = concat (zip_with (zip_with f) x y).
Proof.
  induction 1 as [|r r' x y Hr _ IH]; [done|]. simpl.
  rewrite <- IH. by apply zip_with_app.
Qed.

Lemma elem_of_concat {A} (a : A) (l : list A) (ls : list (list A)) :
  a ∈ l -> l ∈ ls -> a ∈ concat ls.
Proof.
  intros Ha Hl. induction Hl as [l ls|l l' ls _ IH]; simpl; apply elem_of_app; auto.
Qed.

Lemma length_concat_rows {A} (B n : nat) (x : list (list A)) :
  Cif.shape2 B n x -> length (concat x) = (B * n)%nat.
Proof.
  intros [<- Hrows]. induction Hrows as [|r x Hr _ IH]; [done|].
  simpl. rewrite length_app, IH, Hr. lia.
Qed.

Lemma same_shape_rows {A B} (n m : nat) (x : list (list A)) (y : list (list B)) :
  Cif.shape2 n m x -> Cif.shape2 n m y ->
  Forall2 (fun r r' => length r = length r') x y.
Proof.
  intros [Hx Hx'] [Hy Hy']. apply Forall2_same_length_lookup_2.
  - congruence.
  - intros i r r' Hr Hr'. rewrite Forall_forall in Hx'. rewrite Forall_forall in Hy'.
    rewrite (Hx' r), (Hy' r'); [done | | ]; by eapply list_elem_of_lookup_2.
Qed.

(** Cutting a one-dimensional tensor that is the concatenation of [B] rows
    of one width back into rows. *)
Lemma view_rows_concat {A} (B n : nat) (rows : list (list A)) :
  (0 < B)%nat -> Cif.shape2 B n rows -> view_rows B (concat rows) = Ok rows.
Proof.
  intros HB Hshape. pose proof (length_concat_rows B n rows Hshape) as Hlen.
  destruct Hshape as [HBl Hrows].
  unfold view_rows. destruct B as [|B']; [lia|].
  rewrite Hlen, (Nat.mul_comm (S B') n).
  rewrite Nat.Div0.mod_mul, Nat.eqb_refl, Nat.div_mul by lia.
  f_equal. rewrite <- HBl. clear HBl Hlen HB.
  induction Hrows as [|r rows Hr Hrows IH]; [done|].
  cbn [length seq map concat]. f_equal.
  - rewrite Nat.mul_0_l, drop_0. by rewrite take_app_length'.
  - rewrite <- fmap_S_seq. rewrite <- IH at 2.
    change (map ?f (S <$> ?l)) with (map f (map S l)). rewrite map_map.
    apply map_ext. intros b.
    replace (S b * n)%nat with (length r + b * n)%nat by lia.
    by rewrite drop_app_add.
Qed.

Section Model.
Context {Logits : Type}.
Variable nll_at : Logits -> Z -> result Qc.
Variable top1 : Logits -> Z.
Variable f1_score_micro : list Z -> list Z -> Qc.

Abbreviation nll := (nll nll_at top1 f1_score_micro).
Abbreviation batchify_nll := (batchify_nll nll_at top1 f1_score_micro).

Definition value_of (r : result Qc) : Qc :=
  match r with Ok v => v | Raise _ => 0 end.

(** The loss of one position under [ignore_index]. *)
Definition loss_at (ignore_index : Z) (x : Logits) (c : Z) : Qc :=
  if (c =? ignore_index)%Z then 0 else value_of (nll_at x c).

Lemma traverse_ok {A B} (f : A -> result B) (g : A -> B) (l : list A) :
  Forall (fun a => f a = Ok (g a)) l -> traverse f l = Ok (map g l).
Proof.
  induction 1 as [|a l Ha _ IH]; [done|].
  cbn [traverse]. by rewrite Ha, IH.
Qed.

Lemma traverse_length {A B} (f : A -> result B) (l : list A) (r : list B) :
  traverse f l = Ok r -> length r = length l.
Proof.
  revert r. induction l as [|a l IH]; intros r Hr.
  - by injection Hr as <-.
  - cbn [traverse] in Hr. destruct (f a) as [b|]; [|done].
    destruct (traverse f l) as [bs|]; [|done].
    injection Hr as <-. simpl. by rewrite (IH bs).
Qed.

Lemma cross_entropy_length input target ig r :
  cross_entropy nll_at input target ig = Ok r -> length r = length target.
Proof.
  unfold cross_entropy. destruct (Nat.eqb_spec (length input) (length target)) as [E|]; [|done].
  intros Hr%traverse_length. rewrite Hr, length_zip_with. lia.
Qed.

Lemma cross_entropy_value input target ig :
  length input = length target ->
  (forall x c, c ∈ target -> c <> ig -> is_ok (nll_at x c) = true) ->
  cross_entropy nll_at input target ig = Ok (zip_with (loss_at ig) input target).
Proof.
  intros Hlen Hok. unfold cross_entropy. rewrite Hlen, Nat.eqb_refl.
  rewrite (traverse_ok _ (fun xc => loss_at ig xc.1 xc.2)).
  - f_equal. clear. revert target.
    induction input as [|x input IH]; intros [|c target]; simpl; [done..|].
    by rewrite IH.
  - apply Forall_forall. intros [x c] Hin. simpl. unfold loss_at.
    destruct (Z.eqb_spec c ig) as [|Hne]; [done|].
    pose proof (elem_of_zip_r _ _ _ _ Hin) as Hc.
    specialize (Hok x c Hc Hne). unfold value_of.
    by destruct (nll_at x c).
Qed.

(** What [masked_fill_] writes at one position. *)
Definition fill (m : bool) (v : Qc) : Qc := if m then 0 else v.

Lemma masked_fill_same_length x mask :
  length mask = length x -> masked_fill x mask 0 = Ok (zip_with fill mask x).
Proof. intros Hlen. unfold masked_fill. by rewrite Hlen, Nat.eqb_refl. Qed.

(** A training call [nll(text, punc, text_lengths, punc_lengths)] on a batch
    of [B] sequences padded to width [W]: the longest sequence fits, the
    slices to the longest length are contiguous, the network answers with
    one distribution per position, and every target that is not ignored is
    a class. *)
Record nll_input_ok (self : ESPnetPunctuationModel Logits) (text punc : list (list Z))
    (text_lengths : list nat) (B W : nat) (y : list (list Logits)) : Prop := NllInputOk {
  ok_text : Cif.shape2 B W text;
  ok_punc : Cif.shape2 B W punc;
  ok_lengths : length text_lengths = B;
  ok_batch : (0 < B)%nat;
  ok_width : (max_list text_lengths <= W)%nat;
  ok_contiguous :
    (W <= max_list text_lengths)%nat \/ (B <= 1)%nat \/ max_list text_lengths = 0%nat;
  ok_forward :
    punc_model self (slice_cols (max_list text_lengths) text) text_lengths = Ok y;
  ok_y : Cif.shape2 B (max_list text_lengths) y;
  ok_classes : forall x c,
    c ∈ concat (slice_cols (max_list text_lengths) punc) -> c <> ignore_id self ->
    is_ok (nll_at x c) = true
}.

Section Call.
Variables (self : ESPnetPunctuationModel Logits) (text punc : list (list Z)).
Variables (text_lengths punc_lengths : list nat) (B W : nat) (y : list (list Logits)).
Hypothesis Hok : nll_input_ok self text punc text_lengths B W y.

Local Abbreviation L := (max_list text_lengths).

Lemma max_of_lengths : max_of text_lengths = Ok L.
Proof.
  pose proof (ok_lengths _ _ _ _ _ _ _ Hok) as Hl. pose proof (ok_batch _ _ _ _ _ _ _ Hok).
  unfold max_of. destruct text_lengths; [simpl in Hl; lia | done].
Qed.

Lemma shape2_slice_punc : Cif.shape2 B L (slice_cols L punc).
Proof.
  destruct (ok_punc _ _ _ _ _ _ _ Hok) as [Hl Hrows].
  pose proof (ok_width _ _ _ _ _ _ _ Hok) as Hw.
  unfold slice_cols. split; [by rewrite length_map|].
  apply Forall_fmap. eapply Forall_impl; [exact Hrows|].
  simpl. intros row Hrow. rewrite length_take. lia.
Qed.

Lemma view_flat_slice_punc :
  view_flat_slice L punc = Ok (concat (slice_cols L punc)).
Proof.
  destruct (ok_punc _ _ _ _ _ _ _ Hok) as [Hl Hrows].
  unfold view_flat_slice.
  destruct (ok_contiguous _ _ _ _ _ _ _ Hok) as [Hc|[Hc|Hc]].
  - assert (forallb (fun row : list Z => (length row <=? L)%nat) punc = true) as ->; [|done].
    apply forallb_forall. intros row Hin%list_elem_of_In.
    rewrite Forall_forall in Hrows. rewrite (Hrows row Hin). by apply Nat.leb_le.
  - assert ((length punc <=? 1)%nat = true) as -> by (apply Nat.leb_le; lia).
    by rewrite orb_true_r.
  - rewrite Hc. simpl. by rewrite orb_true_r.
Qed.

Lemma shape2_pad_mask : Cif.shape2 B L (make_pad_mask text_lengths None).
Proof.
  unfold make_pad_mask. split.
  - rewrite length_map. apply (ok_lengths _ _ _ _ _ _ _ Hok).
  - apply Forall_fmap, Forall_forall. intros l _. simpl.
    by rewrite length_map, length_seq.
Qed.

(** The losses before the mask is applied, and the value of [nll]. *)
Definition losses : mat :=
  zip_with (zip_with (loss_at (ignore_id self))) y (slice_cols L punc).
Definition nll_rows : mat :=
  zip_with (zip_with fill) (make_pad_mask text_lengths None) losses.

Lemma shape2_losses : Cif.shape2 B L losses.
Proof.
  pose proof (ok_y _ _ _ _ _ _ _ Hok) as [Hy Hy']. pose proof shape2_slice_punc as [Hp Hp'].
  unfold losses. split; [rewrite length_zip_with; lia|].
  apply Forall_forall. intros row Hrow.
  apply list_elem_of_lookup in Hrow as [i Hi].
  apply lookup_zip_with_Some in Hi as (yr & pr & -> & Hyr & Hpr).
  rewrite Forall_forall in Hy'. rewrite Forall_forall in Hp'.
  rewrite length_zip_with.
  rewrite (Hy' yr), (Hp' pr); [lia | | ]; by eapply list_elem_of_lookup_2.
Qed.

Lemma shape2_nll_rows : Cif.shape2 B L nll_rows.
Proof.
  pose proof shape2_losses as [Hl Hl']. pose proof shape2_pad_mask as [Hm Hm'].
  unfold nll_rows. split; [rewrite length_zip_with; lia|].
  apply Forall_forall. intros row Hrow.
  apply list_elem_of_lookup in Hrow as [i Hi].
  apply lookup_zip_with_Some in Hi as (mr & lr & -> & Hmr & Hlr).
  rewrite Forall_forall in Hl'. rewrite Forall_forall in Hm'.
  rewrite length_zip_with.
  rewrite (Hm' mr), (Hl' lr); [lia | | ]; by eapply list_elem_of_lookup_2.
Qed.

Lemma nll_training_value :
  training self = true ->
  nll self text punc text_lengths punc_lengths None = Ok (Tensor2 nll_rows, text_lengths).
Proof.
  intros Htr. unfold Punctuation.nll.
  rewrite max_of_lengths. cbn [mbind result_bind].
  rewrite (ok_forward _ _ _ _ _ _ _ Hok). cbn [mbind result_bind].
  rewrite Htr. cbn [negb]. rewrite view_flat_slice_punc. cbn [mbind result_bind].
  rewrite cross_entropy_value.
  - cbn [mbind result_bind].
    rewrite (zip_with_concat _ y (slice_cols L punc))
      by (eapply same_shape_rows; [apply (ok_y _ _ _ _ _ _ _ Hok) | apply shape2_slice_punc]).
    fold losses. rewrite masked_fill_same_length.
    + cbn [mbind result_bind].
      rewrite (zip_with_concat fill)
        by (eapply same_shape_rows; [apply shape2_pad_mask | apply shape2_losses]).
      fold nll_rows. destruct (ok_text _ _ _ _ _ _ _ Hok) as [-> _].
      rewrite (view_rows_concat B L);
        [done | apply (ok_batch _ _ _ _ _ _ _ Hok) | apply shape2_nll_rows].
    + rewrite (length_concat_rows B L _ shape2_pad_mask).
      by rewrite (length_concat_rows B L _ shape2_losses).
  - rewrite (length_concat_rows B L _ (ok_y _ _ _ _ _ _ _ Hok)).
    by rewrite (length_concat_rows B L _ shape2_slice_punc).
  - apply (ok_classes _ _ _ _ _ _ _ Hok).
Qed.

(** Entry (b, t) of the value of [nll]. *)
Lemma nll_rows_lookup b t l row c yrow x :
  text_lengths !! b = Some l ->
  punc !! b = Some row -> row !! t = Some c ->
  y !! b = Some yrow -> yrow !! t = Some x ->
  (t < L)%nat ->
  exists mrow,
    nll_rows !! b = Some mrow
    /\ mrow !! t = Some (if (l <=? t)%nat then 0 else loss_at (ignore_id self) x c).
Proof.
  intros Hl Hrow Hc Hyrow Hx Ht.
  unfold nll_rows, losses, make_pad_mask, slice_cols.
  rewrite !lookup_zip_with, !list_lookup_fmap, Hl, Hrow, Hyrow. simpl.
  eexists. split; [reflexivity|].
  rewrite !lookup_zip_with, list_lookup_fmap, Hx.
  rewrite lookup_seq_lt by done. rewrite lookup_take_lt by done. rewrite Hc. simpl.
  unfold fill. reflexivity.
Qed.

Lemma nll_eval_value :
  training self = false ->
  nll self text punc text_lengths punc_lengths None
  = Ok (Tensor1 (replicate (sum_list text_lengths)
                   (f1_score_micro (concat (slice_cols L punc)) (map top1 (concat y)))),
        text_lengths).
Proof.
  intros Htr. unfold Punctuation.nll.
  rewrite max_of_lengths. cbn [mbind result_bind].
  rewrite (ok_forward _ _ _ _ _ _ _ Hok). cbn [mbind result_bind].
  rewrite Htr. cbn [negb]. rewrite view_flat_slice_punc. cbn [mbind result_bind].
  rewrite length_map.
  rewrite (length_concat_rows B L _ (ok_y _ _ _ _ _ _ _ Hok)).
  rewrite (length_concat_rows B L _ shape2_slice_punc).
  by rewrite Nat.eqb_refl.
Qed.

End Call.

Lemma lookup_in_shape {A} (B n : nat) (x : list (list A)) b :
  Cif.shape2 B n x -> (b < B)%nat -> exists row, x !! b = Some row /\ length row = n.
Proof.
  intros [Hl Hrows] Hb.
  destruct (lookup_lt_is_Some_2 x b) as [row Hrow]; [lia|].
  exists row. split; [done|]. rewrite Forall_forall in Hrows.
  apply Hrows. by eapply list_elem_of_lookup_2.
Qed.

(** C10.  In training mode, on a well-shaped batch, [nll] returns a (B, L)
    tensor, and every position whose target is [ignore_id] holds exactly 0,
    wherever it lies in its sequence. *)
Theorem nll_ignored_label_is_zero (self : ESPnetPunctuationModel Logits)
    text punc text_lengths punc_lengths B W y :
  training self = true ->
  nll_input_ok self text punc text_lengths B W y ->
  exists m,
    nll self text punc text_lengths punc_lengths None = Ok (Tensor2 m, text_lengths)
    /\ Cif.shape2 B (max_list text_lengths) m
    /\ forall b t row,
         punc !! b = Some row -> row !! t = Some (ignore_id self) ->
         (t < max_list text_lengths)%nat ->
         exists mrow, m !! b = Some mrow /\ mrow !! t = Some 0.
Proof.
  intros Htr Hok. exists (nll_rows self punc text_lengths y).
  split; [by eapply nll_training_value|].
  split; [by eapply shape2_nll_rows|].
  intros b t row Hrow Hc Ht.
  assert (b < B)%nat as Hb.
  { destruct (ok_punc _ _ _ _ _ _ _ Hok) as [<- _]. by eapply lookup_lt_Some. }
  destruct (lookup_lt_is_Some_2 text_lengths b) as [l Hl];
    [rewrite (ok_lengths _ _ _ _ _ _ _ Hok); lia|].
  destruct (lookup_in_shape B _ y b (ok_y _ _ _ _ _ _ _ Hok) Hb) as (yrow & Hyrow & Hylen).
  destruct (lookup_lt_is_Some_2 yrow t) as [x Hx]; [lia|].
  destruct (nll_rows_lookup self punc text_lengths y b t l row _ yrow x
              Hl Hrow Hc Hyrow Hx Ht) as (mrow & Hm & Hv).
  exists mrow. split; [done|]. rewrite Hv. unfold loss_at.
  rewrite Z.eqb_refl. by destruct (l <=? t)%nat.
Qed.

(** Without [max_length], in training mode, every padding position of the
    value of [nll], a position at or beyond the true length of its
    sequence, holds exactly 0. *)
Theorem nll_padding_is_zero (self : ESPnetPunctuationModel Logits)
    text punc text_lengths punc_lengths B W y :
  training self = true ->
  nll_input_ok self text punc text_lengths B W y ->
  exists m,
    nll self text punc text_lengths punc_lengths None = Ok (Tensor2 m, text_lengths)
    /\ Cif.shape2 B (max_list text_lengths) m
    /\ forall b t l,
         text_lengths !! b = Some l -> (l <= t)%nat ->
         (t < max_list text_lengths)%nat ->
         exists mrow, m !! b = Some mrow /\ mrow !! t = Some 0.
Proof.
  intros Htr Hok. exists (nll_rows self punc text_lengths y).
  split; [by eapply nll_training_value|].
  split; [by eapply shape2_nll_rows|].
  intros b t l Hl Hle Ht.
  assert (b < B)%nat as Hb.
  { rewrite <- (ok_lengths _ _ _ _ _ _ _ Hok). by eapply lookup_lt_Some. }
  destruct (lookup_in_shape B _ punc b (ok_punc _ _ _ _ _ _ _ Hok) Hb) as (row & Hrow & Hrlen).
  pose proof (ok_width _ _ _ _ _ _ _ Hok) as Hw.
  destruct (lookup_lt_is_Some_2 row t) as [c Hc]; [lia|].
  destruct (lookup_in_shape B _ y b (ok_y _ _ _ _ _ _ _ Hok) Hb) as (yrow & Hyrow & Hylen).
  destruct (lookup_lt_is_Some_2 yrow t) as [x Hx]; [lia|].
  destruct (nll_rows_lookup self punc text_lengths y b t l row c yrow x
              Hl Hrow Hc Hyrow Hx Ht) as (mrow & Hm & Hv).
  exists mrow. split; [done|]. rewrite Hv.
  by destruct (Nat.leb_spec l t); [|lia].
Qed.

(** C8.  One code path, two regimes.  With the training flag off [nll]
    returns a one-dimensional tensor of [text_lengths.sum()] copies of one
    scalar, the micro-averaged F1 score of the [topk(1)] predictions
    against the targets, paired with [text_lengths].  With the flag on it
    returns the (B, L) tensor of the per-position cross entropies: at a
    position inside its sequence whose target is not ignored the entry is
    the cross entropy of that position. *)
Theorem nll_training_flag_selects_output (self : ESPnetPunctuationModel Logits)
    text punc text_lengths punc_lengths B W y :
  nll_input_ok self text punc text_lengths B W y ->
  (training self = false ->
     nll self text punc text_lengths punc_lengths None
     = Ok (Tensor1 (replicate (sum_list text_lengths)
                      (f1_score_micro
                         (concat (slice_cols (max_list text_lengths) punc))
                         (map top1 (concat y)))),
           text_lengths))
  /\ (training self = true ->
      exists m,
        nll self text punc text_lengths punc_lengths None = Ok (Tensor2 m, text_lengths)
        /\ Cif.shape2 B (max_list text_lengths) m
        /\ forall b t l row c yrow x,
             text_lengths !! b = Some l ->
             punc !! b = Some row -> row !! t = Some c ->
             y !! b = Some yrow -> yrow !! t = Some x ->
             (t < l)%nat -> c <> ignore_id self ->
             exists mrow v,
               m !! b = Some mrow /\ mrow !! t = Some v /\ nll_at x c = Ok v).
Proof.
  intros Hok. split; [by eapply nll_eval_value|].
  intros Htr. exists (nll_rows self punc text_lengths y).
  split; [by eapply nll_training_value|].
  split; [by eapply shape2_nll_rows|].
  intros b t l row c yrow x Hl Hrow Hc Hyrow Hx Ht Hne.
  assert (l <= max_list text_lengths)%nat as Hmax.
  { apply max_list_elem_of_le. by eapply list_elem_of_lookup_2. }
  destruct (nll_rows_lookup self punc text_lengths y b t l row c yrow x
              Hl Hrow Hc Hyrow Hx) as (mrow & Hm & Hv); [lia|].
  assert (is_ok (nll_at x c) = true) as Hcls.
  { apply (ok_classes _ _ _ _ _ _ _ Hok); [|done].
    apply (elem_of_concat _ (take (max_list text_lengths) row)).
    - eapply list_elem_of_lookup_2. apply lookup_take_Some. split; [done | lia].
    - unfold slice_cols. apply list_elem_of_fmap. exists row.
      split; [done | by eapply list_elem_of_lookup_2]. }
  destruct (nll_at x c) as [v|] eqn:Ev; [|done].
  exists mrow, v. split; [done|]. split; [|done].
  rewrite Hv. unfold loss_at. rewrite Ev. simpl.
  destruct (Nat.leb_spec l t); [lia|].
  destruct (Z.eqb_spec c (ignore_id self)); [done | done].
Qed.

Lemma length_concat_slice {A} (n : nat) (x : list (list A)) :
  (length (concat (slice_cols n x)) <= length x * n)%nat.
Proof.
  induction x as [|r x IH]; [done|]. simpl.
  rewrite length_app, length_take. lia.
Qed.

(** With an explicit [max_length] the mask is built one column wider than
    the losses, and [masked_fill_] refuses it. *)
Lemma nll_explicit_max_length_raises (self : ESPnetPunctuationModel Logits)
    text punc text_lengths punc_lengths (m : nat) :
  training self = true ->
  length text_lengths = length punc -> (0 < length punc)%nat -> (0 < m)%nat ->
  is_ok (nll self text punc text_lengths punc_lengths (Some m)) = false.
Proof.
  intros Htr Hlen HB Hm. unfold Punctuation.nll. cbn [mbind result_bind].
  destruct (punc_model self _ _) as [y0|]; [|done]. rewrite Htr. cbn [negb].
  unfold view_flat_slice. destruct (_ || _ || _); [|done]. cbn [mbind result_bind].
  destruct (cross_entropy _ _ _ _) as [r|] eqn:Hr; [|done]. cbn [mbind result_bind].
  apply cross_entropy_length in Hr.
  pose proof (length_concat_slice m punc) as Hle.
  assert (length (concat (make_pad_mask text_lengths (Some (m + 1)%nat)))
          = (length punc * (m + 1))%nat) as Hmask.
  { apply (length_concat_rows (length punc) (m + 1)). unfold make_pad_mask. split.
    - by rewrite length_map.
    - apply Forall_fmap, Forall_forall. intros l _. simpl.
      by rewrite length_map, length_seq. }
  unfold masked_fill. rewrite Hmask.
  destruct (Nat.eqb_spec (length punc * (m + 1)) (length r)) as [E|_]; [nia|].
  destruct (concat (make_pad_mask _ _)) as [|m0 [|m1 rest]]; [done | | done].
  simpl in Hmask. nia.
Qed.

(** C6 on the code.  [batchify_nll] calls [nll] without the required
    argument [punc_lengths] on both of its branches, so on no input and for
    no chunk size does it return a tensor that could be compared with the
    single pass. *)
Theorem batchify_nll_never_returns (self : ESPnetPunctuationModel Logits)
    text punc text_lengths punc_lengths (batch_size : nat) :
  is_ok (batchify_nll self text punc text_lengths punc_lengths batch_size) = false.
Proof.
  unfold Punctuation.batchify_nll.
  destruct (length text <=? batch_size)%nat; [done|].
  destruct (max_of text_lengths) as [n|]; [|done].
  reflexivity.
Qed.

End Model.
(** *** A small model for the examples

    The network answers each token with the token itself, four classes are
    known, the loss of a class is 1/2, and the score is the share of equal
    entries. *)

Definition toy_nll_at (x c : Z) : result Qc :=
  if ((0 <=? c) && (c <? 4))%Z then Ok (q 1 2) else Raise IndexError.
Definition toy_top1 (x : Z) : Z := (x mod 4)%Z.
Definition toy_score (y_true y_pred : list Z) : Qc :=
  q (Z.of_nat (length (filter (fun p : Z * Z => p.1 = p.2) (zip y_true y_pred))))
    (Pos.of_nat (length y_true)).
Definition toy_model (flag : bool) : ESPnetPunctuationModel Z :=
  {| punc_model := fun text _ => Ok text;
     sos := 1; eos := 2; ignore_id := 0; training := flag |}.

Definition toy_text : list (list Z) := [[5; 6; 7]; [8; 9; 0]]%Z.
Definition toy_punc : list (list Z) := [[1; 0; 2]; [3; 1; 0]]%Z.
Definition toy_lengths : list nat := [3; 2]%nat.

Lemma toy_input_ok flag :
  nll_input_ok toy_nll_at (toy_model flag) toy_text toy_punc toy_lengths 2 3 toy_text.
Proof.
  split.
  - repeat split; repeat constructor.
  - repeat split; repeat constructor.
  - reflexivity.
  - lia.
  - simpl. lia.
  - left. simpl. lia.
  - reflexivity.
  - repeat split; repeat constructor.
  - intros x c Hc Hne. simpl in Hc, Hne.
    repeat (apply elem_of_cons in Hc as [->|Hc]); try done.
    by apply elem_of_nil in Hc.
Defined.

Lemma nll_ignored_label_is_zero_witness :
  exists m,
    Punctuation.nll toy_nll_at toy_top1 toy_score (toy_model true)
      toy_text toy_punc toy_lengths toy_lengths None = Ok (Tensor2 m, toy_lengths)
    /\ Cif.shape2 2 (max_list toy_lengths) m
    /\ forall b t row,
         toy_punc !! b = Some row -> row !! t = Some (ignore_id (toy_model true)) ->
         (t < max_list toy_lengths)%nat ->
         exists mrow, m !! b = Some mrow /\ mrow !! t = Some 0.
Proof.
  apply (nll_ignored_label_is_zero toy_nll_at toy_top1 toy_score (toy_model true)
           toy_text toy_punc toy_lengths toy_lengths 2 3 toy_text).
  - reflexivity.
  - exact (toy_input_ok true).
Defined.

Lemma nll_padding_is_zero_witness :
  exists m,
    Punctuation.nll toy_nll_at toy_top1 toy_score (toy_model true)
      toy_text toy_punc toy_lengths toy_lengths None = Ok (Tensor2 m, toy_lengths)
    /\ Cif.shape2 2 (max_list toy_lengths) m
    /\ forall b t l,
         toy_lengths !! b = Some l -> (l <= t)%nat ->
         (t < max_list toy_lengths)%nat ->
         exists mrow, m !! b = Some mrow /\ mrow !! t = Some 0.
Proof.
  apply (nll_padding_is_zero toy_nll_at toy_top1 toy_score (toy_model true)
           toy_text toy_punc toy_lengths toy_lengths 2 3 toy_text).
  - reflexivity.
  - exact (toy_input_ok true).
Defined.

Lemma nll_training_flag_selects_output_witness :
  (training (toy_model false) = false ->
     Punctuation.nll toy_nll_at toy_top1 toy_score (toy_model false)
       toy_text toy_punc toy_lengths toy_lengths None
     = Ok (Tensor1 (replicate (sum_list toy_lengths)
                      (toy_score
                         (concat (slice_cols (max_list toy_lengths) toy_punc))
                         (map toy_top1 (concat toy_text)))),
           toy_lengths))
  /\ (training (toy_model false) = true ->
      exists m,
        Punctuation.nll toy_nll_at toy_top1 toy_score (toy_model false)
          toy_text toy_punc toy_lengths toy_lengths None = Ok (Tensor2 m, toy_lengths)
        /\ Cif.shape2 2 (max_list toy_lengths) m
        /\ forall b t l row c yrow x,
             toy_lengths !! b = Some l ->
             toy_punc !! b = Some row -> row !! t = Some c ->
             toy_text !! b = Some yrow -> yrow !! t = Some x ->
             (t < l)%nat -> c <> ignore_id (toy_model false) ->
             exists mrow v,
               m !! b = Some mrow /\ mrow !! t = Some v /\ toy_nll_at x c = Ok v).
Proof.
  apply (nll_training_flag_selects_output toy_nll_at toy_top1 toy_score (toy_model false)
           toy_text toy_punc toy_lengths toy_lengths 2 3 toy_text).
  exact (toy_input_ok false).
Defined.

(** The two regimes on the small model: the training call returns the
    masked losses, the evaluation call five copies of the score 1/2. *)
Example nll_toy_training :
  Punctuation.nll toy_nll_at toy_top1 toy_score (toy_model true)
    toy_text toy_punc toy_lengths toy_lengths None
  = Ok (Tensor2 [[q 1 2; 0; q 1 2]; [q 1 2; q 1 2; 0]], toy_lengths).
Proof. compute_done. Qed.

Example nll_toy_evaluation :
  Punctuation.nll toy_nll_at toy_top1 toy_score (toy_model false)
    toy_text toy_punc toy_lengths toy_lengths None
  = Ok (Tensor1 (replicate 5 (q 1 2)), toy_lengths).
Proof. compute_done. Qed.

(** C7 on the code.  One sequence of two tokens, in training mode: without
    [max_length] the call returns the two losses; with [max_length = 2],
    the value [batchify_nll] would pass, the mask has three entries for two
    losses and [masked_fill_] raises. *)
Theorem nll_explicit_max_length_shape_error :
  Punctuation.nll toy_nll_at toy_top1 toy_score (toy_model true)
    [[5; 6]]%Z [[1; 1]]%Z [2%nat] [2%nat] None
  = Ok (Tensor2 [[q 1 2; q 1 2]], [2%nat])
  /\ Punctuation.nll toy_nll_at toy_top1 toy_score (toy_model true)
       [[5; 6]]%Z [[1; 1]]%Z [2%nat] [2%nat] (Some 2%nat)
     = Raise RuntimeError.
Proof. split; compute_done. Qed.

(** [batchify_nll] on a batch of two, in one chunk and in chunks of one. *)
Example batchify_nll_toy :
  Punctuation.batchify_nll toy_nll_at toy_top1 toy_score (toy_model true)
    toy_text toy_punc toy_lengths toy_lengths 100 = Raise TypeError
  /\ Punctuation.batchify_nll toy_nll_at toy_top1 toy_score (toy_model true)
       toy_text toy_punc toy_lengths toy_lengths 1 = Raise TypeError.
Proof. split; reflexivity. Qed.

End PunctuationSpec.

(** * Laws of [cif] *)

Module CifLaws.
Import Store Cif TorchFacts CifLoop.

(** A count as a scalar. *)
Definition Qc_of_nat (n : nat) : Qc := Q2Qc (inject_Z (Z.of_nat n)).

(** The positions below [k] at which one batch element fires. *)
Definition fired_before (threshold : Qc) (al : list Qc) (k : nat) : list nat :=
  filter (fun t => fired threshold al t = true) (seq 0 k).

(** [a] is a multiple of 2^-23: the denominator of its reduced fraction
    divides 2^23.  Such a number below 2 in absolute value has a
    significand of at most 24 bits; it is a binary32 number, and so are the
    sum and the difference of two of them when they stay below 2. *)
Definition on_grid (a : Qc) : bool :=
  (2 ^ 23 mod Zpos (Qden a) =? 0)%Z.

(** The float run of the accumulator of one batch element: the recursion
    of [row_integrate] with the sum of [integrate += alpha] and the
    difference of [integrate - torch.ones(...)] (lines 143 and 148) rounded
    by [fl]. *)
Section Rounded.
Variables (fl : Qc -> Qc) (threshold : Qc) (al : list Qc).

Fixpoint row_integrate_fl (k : nat) : Qc :=
  match k with
  | O => 0
  | S k' =>
      let p := fl (row_integrate_fl k' + alpha_at al k') in
      if Qcgeb p threshold then fl (p - 1) else p
  end.

Definition row_fire_fl (t : nat) : Qc := fl (row_integrate_fl t + alpha_at al t).

End Rounded.

(** What is asked of a rounding: it keeps a number that is on the grid and
    below 2 in absolute value.  Rounding to the nearest binary32 number
    does. *)
Definition exact_on_grid (fl : Qc -> Qc) : Prop :=
  forall x, on_grid x = true -> - (2) < x -> x < 2 -> fl x = x.

Lemma Qc_of_nat_S n : Qc_of_nat (S n) = Qc_of_nat n + 1.
Proof.
  apply Qc_is_canon. unfold Qc_of_nat, Qcplus, Q2Qc. simpl this.
  rewrite !Qred_correct, Nat2Z.inj_succ. unfold Z.succ.
  rewrite inject_Z_plus. reflexivity.
Qed.

Lemma Qc_of_nat_Z n : (Qc_of_nat n : Q) == inject_Z (Z.of_nat n).
Proof. unfold Qc_of_nat, Q2Qc. simpl. apply Qred_correct. Qed.

Lemma sum_snoc (l : list Qc) (x : Qc) :
  foldr Qcplus 0 (l ++ [x]) = foldr Qcplus 0 l + x.
Proof.
  induction l as [|y l IH]; simpl; [ring|]. rewrite IH. ring.
Qed.

Lemma map_alpha_at (al : list Qc) : map (alpha_at al) (seq 0 (length al)) = al.
Proof.
  apply nth_ext with (d := 0) (d' := 0).
  - by rewrite length_map, length_seq.
  - intros n Hn. rewrite length_map, length_seq in Hn.
    rewrite (nth_indep _ 0 (alpha_at al 0)) by (rewrite length_map, length_seq; lia).
    rewrite map_nth, seq_nth by done. reflexivity.
Qed.

Lemma fired_before_S threshold al k :
  fired_before threshold al (S k)
  = fired_before threshold al k ++ (if fired threshold al k then [k] else []).
Proof.
  unfold fired_before. rewrite seq_S, filter_app. f_equal. simpl.
  rewrite filter_cons, filter_nil. destruct (fired threshold al k); by case_decide.
Qed.

(** Every firing takes exactly 1 from the accumulator and nothing else does:
    after [k] steps the accumulator plus the number of firings is the sum
    of the alphas seen. *)
Lemma row_mass threshold al k :
  row_integrate threshold al k + Qc_of_nat (length (fired_before threshold al k))
  = foldr Qcplus 0 (map (alpha_at al) (seq 0 k)).
Proof.
  induction k as [|k IH].
  - simpl. apply Qc_is_canon. reflexivity.
  - rewrite seq_S, map_app. cbn [map Nat.add].
    rewrite sum_snoc, <- IH, fired_before_S.
    cbn [row_integrate]. cbv zeta. unfold fired, row_fire.
    destruct (Qcgeb (row_integrate threshold al k + alpha_at al k) threshold).
    + rewrite length_app. simpl. rewrite Nat.add_1_r, Qc_of_nat_S. ring.
    + rewrite app_nil_r. ring.
Qed.

Lemma fire_positions_row threshold al T :
  fire_positions threshold (map (fun t => row_fire threshold al t) (seq 0 T))
  = fired_before threshold al T.
Proof.
  unfold fire_positions, fired_before. rewrite length_map, length_seq.
  apply filter_ext_elem. intros t Ht%elem_of_seq.
  rewrite (nth_steps T) by lia. done.
Qed.

(** Row [b] of the returned fire trace. *)
Lemma fires_row hidden alphas threshold B T H b :
  wf_input B T H hidden alphas -> (b < B)%nat ->
  nth b (fires_out hidden alphas threshold T) []
  = map (fun t => row_fire threshold (nth b alphas []) t) (seq 0 T).
Proof.
  intros Hwf Hb. unfold fires_out.
  rewrite (nth_rows hidden alphas B T H Hwf) by done.
  by rewrite (nth_rows_alphas hidden alphas B T H Hwf).
Qed.

Lemma alphas_row_length hidden alphas B T H b :
  wf_input B T H hidden alphas -> (b < B)%nat -> length (nth b alphas []) = T.
Proof.
  intros (_ & _ & [Hl Hrows]) Hb. rewrite Forall_forall in Hrows.
  apply Hrows, nth_elem_of. lia.
Qed.

Lemma alphas_row_elem hidden alphas B T H b :
  wf_input B T H hidden alphas -> (b < B)%nat -> nth b alphas [] ∈ alphas.
Proof. intros (_ & _ & [Hl _]) Hb. apply nth_elem_of. lia. Qed.

Lemma on_grid_spec (a : Qc) :
  on_grid a = true <-> exists n : Z, (a == n # 2 ^ 23)%Q.
Proof.
  unfold on_grid. rewrite Z.eqb_eq. split.
  - intros Hmod. apply Z.mod_divide in Hmod; [|done].
    destruct Hmod as [c Hc]. exists (Qnum a * c)%Z.
    unfold Qeq. cbn [Qnum Qden].
    change (Z.pos (2 ^ 23)) with (2 ^ 23)%Z. rewrite Hc. ring.
  - intros [n Hn]. apply Z.mod_divide; [done|].
    unfold Qeq in Hn. cbn [Qnum Qden] in Hn.
    change (Z.pos (2 ^ 23)) with (2 ^ 23)%Z in Hn.
    apply (Z.gauss _ (Qnum a)).
    + exists n. lia.
    + rewrite Z.gcd_comm. apply Qred_identity2, canon.
Qed.

Lemma on_grid_plus (a b : Qc) :
  on_grid a = true -> on_grid b = true -> on_grid (a + b) = true.
Proof.
  rewrite !on_grid_spec. intros [n Hn] [m Hm]. exists (n + m)%Z.
  unfold Qcplus, Q2Qc. cbn [this]. rewrite Qred_correct, Hn, Hm.
  unfold Qeq. cbn [Qnum Qden Qplus].
  change (Z.pos (2 ^ 23 * 2 ^ 23)) with (2 ^ 23 * 2 ^ 23)%Z.
  change (Z.pos (2 ^ 23)) with (2 ^ 23)%Z. ring.
Qed.

Lemma on_grid_minus (a b : Qc) :
  on_grid a = true -> on_grid b = true -> on_grid (a - b) = true.
Proof.
  rewrite !on_grid_spec. intros [n Hn] [m Hm]. exists (n - m)%Z.
  unfold Qcminus, Qcplus, Qcopp, Q2Qc. cbn [this].
  rewrite !Qred_correct, Hn, Hm.
  unfold Qeq. cbn [Qnum Qden Qplus Qopp].
  change (Z.pos (2 ^ 23 * 2 ^ 23)) with (2 ^ 23 * 2 ^ 23)%Z.
  change (Z.pos (2 ^ 23)) with (2 ^ 23)%Z. ring.
Qed.

Lemma on_grid_alpha_at (al : list Qc) (t : nat) :
  Forall (fun a => on_grid a = true) al -> on_grid (alpha_at al t) = true.
Proof.
  intros Hal. unfold alpha_at. destruct (nth_in_or_default t al 0) as [Hin| ->].
  - rewrite Forall_forall in Hal. apply Hal. by apply list_elem_of_In.
  - reflexivity.
Qed.

(** On the grid, and as long as the fire trace stays between -1 and 2, the
    rounded run of one batch element is the exact one: no step rounds. *)
Lemma rounded_row fl threshold (al : list Qc) (k : nat) :
  exact_on_grid fl ->
  Forall (fun a => on_grid a = true) al ->
  (forall t, (t < k)%nat ->
     - (1) < row_fire threshold al t /\ row_fire threshold al t < 2) ->
  (row_integrate_fl fl threshold al k = row_integrate threshold al k
   /\ on_grid (row_integrate threshold al k) = true
   /\ - (2) < row_integrate threshold al k /\ row_integrate threshold al k < 2)
  /\ forall t, (t < k)%nat -> row_fire_fl fl threshold al t = row_fire threshold al t.
Proof.
  intros Hfl Hal. induction k as [|k IH]; intros Hfire.
  - split; [|intros t Ht; lia].
    split; [done|]. split; [reflexivity|]. simpl. split; qc_lra.
  - destruct IH as [(Heq & Hg & Hlo & Hhi) IHt]; [intros t Ht; apply Hfire; lia|].
    destruct (Hfire k (Nat.lt_succ_diag_r k)) as [Hs0 Hs1].
    pose proof (on_grid_plus _ _ Hg (on_grid_alpha_at al k Hal)) as Hgs.
    unfold row_fire in Hs0, Hs1.
    assert (fl (row_integrate threshold al k + alpha_at al k)
            = row_integrate threshold al k + alpha_at al k) as Hexact.
    { apply Hfl; [done| |done]. clear -Hs0.
      set (s := row_integrate threshold al k + alpha_at al k) in *. clearbody s. qc_lra. }
    split.
    + cbn [row_integrate_fl row_integrate]. cbv zeta. rewrite Heq, Hexact.
      clear IHt Hfire Hal Heq Hexact Hg Hlo Hhi.
      set (s := row_integrate threshold al k + alpha_at al k) in *. clearbody s.
      destruct (Qcgeb s threshold).
      * assert (on_grid (s - 1) = true) as Hg1 by (by apply on_grid_minus).
        assert (- (2) < s - 1 /\ s - 1 < 2) as [Hl1 Hh1] by (clear -Hs0 Hs1; split; qc_lra).
        rewrite (Hfl (s - 1)) by done. done.
      * split; [done|]. split; [done|]. clear -Hs0 Hs1. split; qc_lra.
    + intros t Ht. destruct (decide (t = k)) as [->|Hne].
      * unfold row_fire_fl, row_fire. by rewrite Heq, Hexact.
      * apply IHt. lia.
Qed.

Lemma fires_row_pred (P : Qc -> Prop) hidden alphas threshold B T H b t :
  wf_input B T H hidden alphas -> (b < B)%nat -> (t < T)%nat ->
  Forall (Forall P) (fires_out hidden alphas threshold T) ->
  P (row_fire threshold (nth b alphas []) t).
Proof.
  intros Hwf Hb Ht Hfires. rewrite Forall_forall in Hfires.
  assert (nth b (fires_out hidden alphas threshold T) []
            ∈ fires_out hidden alphas threshold T) as Hrow.
  { apply nth_elem_of. unfold fires_out.
    rewrite length_map, (length_rows hidden alphas B T H Hwf). lia. }
  specialize (Hfires _ Hrow).
  rewrite (fires_row hidden alphas threshold B T H b Hwf Hb) in Hfires.
  rewrite Forall_forall in Hfires. apply Hfires.
  apply list_elem_of_fmap. exists t. split; [done|]. apply elem_of_seq. lia.
Qed.

(** The same for the batch: the rounded run of every batch element ends
    with the accumulator and produces the fire trace of the exact run. *)
Lemma cif_rounded_run hidden alphas threshold B T H fl :
  wf_input B T H hidden alphas ->
  Forall (Forall (fun a => on_grid a = true)) alphas ->
  (forall b t, (b < B)%nat -> (t < T)%nat ->
     - (1) < row_fire threshold (nth b alphas []) t
     /\ row_fire threshold (nth b alphas []) t < 2) ->
  exact_on_grid fl ->
  forall b, (b < B)%nat ->
    row_integrate_fl fl threshold (nth b alphas []) T
    = nth b (integrate_val hidden alphas threshold T) 0
    /\ forall t, (t < T)%nat ->
         row_fire_fl fl threshold (nth b alphas []) t
         = nth t (nth b (fires_out hidden alphas threshold T) []) 0.
Proof.
  intros Hwf Hgrid Hbound Hfl b Hb.
  assert (Forall (fun a => on_grid a = true) (nth b alphas [])) as Hal.
  { rewrite Forall_forall in Hgrid. apply Hgrid. by eapply alphas_row_elem. }
  destruct (rounded_row fl threshold (nth b alphas []) T Hfl Hal)
    as [(Heq & _) Hfire]; [intros t Ht; by apply Hbound|].
  split.
  - by rewrite (nth_integrate_val hidden alphas threshold B T H Hwf).
  - intros t Ht. rewrite (fires_row hidden alphas threshold B T H b Hwf Hb).
    rewrite (nth_steps T) by done. by apply Hfire.
Qed.

(** Mass conservation.  For alphas on the grid and a fire trace that
    stays between -1 and 2: when the loop has ended, the accumulator of
    every batch element plus the number of its firings is the exact sum of
    its alphas, for every threshold: a firing removes exactly 1 and nothing
    is lost.  This is so for the float run as well: rounded by any [fl]
    that keeps the grid, the loop ends with the same accumulator and
    records the same trace. *)
Theorem cif_mass_conservation hidden alphas threshold B T H tokens fires :
  wf_input B T H hidden alphas ->
  cif hidden alphas threshold = Ok (tokens, fires) ->
  Forall (Forall (fun a => on_grid a = true)) alphas ->
  Forall (Forall (fun x => - (1) < x /\ x < 2)) fires ->
  exists acc,
    integrate_after hidden alphas threshold T = Ok acc
    /\ (forall b, (b < B)%nat ->
         nth b acc 0 + Qc_of_nat (length (fire_positions threshold (nth b fires [])))
         = foldr Qcplus 0 (nth b alphas []))
    /\ (forall fl, exact_on_grid fl -> forall b, (b < B)%nat ->
         row_integrate_fl fl threshold (nth b alphas []) T = nth b acc 0
         /\ forall t, (t < T)%nat ->
              row_fire_fl fl threshold (nth b alphas []) t = nth t (nth b fires []) 0).
Proof.
  intros Hwf Hcif Hgrid Hbound.
  destruct (cif_ok_inv hidden alphas threshold B T H Hwf _ Hcif) as (HB & HT & Hout).
  injection Hout as -> ->.
  exists (integrate_val hidden alphas threshold T).
  split; [by eapply integrate_after_value|]. split.
  - intros b Hb.
    rewrite (nth_integrate_val hidden alphas threshold B T H Hwf) by done.
    rewrite (fires_row hidden alphas threshold B T H b Hwf Hb), fire_positions_row.
    rewrite row_mass.
    rewrite <- (alphas_row_length hidden alphas B T H b Hwf Hb) at 1.
    by rewrite map_alpha_at.
  - intros fl Hfl. eapply cif_rounded_run; [exact Hwf | exact Hgrid | | exact Hfl].
    intros b t Hb Ht.
    apply (fires_row_pred (fun x => - (1) < x /\ x < 2) hidden alphas threshold B T H b t
             Hwf Hb Ht Hbound).
Qed.

Lemma cif_mass_conservation_witness :
  exists acc,
    integrate_after CifSpec.hidden_2x3 CifSpec.alphas_2x3 1 3 = Ok acc
    /\ (forall b, (b < 2)%nat ->
         nth b acc 0
         + Qc_of_nat (length (fire_positions 1
             (nth b [[q 1 2; q 1 1; q 1 1]; [q 1 4; q 1 2; q 3 4]] [])))
         = foldr Qcplus 0 (nth b CifSpec.alphas_2x3 []))
    /\ (forall fl, exact_on_grid fl -> forall b, (b < 2)%nat ->
         row_integrate_fl fl 1 (nth b CifSpec.alphas_2x3 []) 3 = nth b acc 0
         /\ forall t, (t < 3)%nat ->
              row_fire_fl fl 1 (nth b CifSpec.alphas_2x3 []) t
              = nth t (nth b [[q 1 2; q 1 1; q 1 1]; [q 1 4; q 1 2; q 3 4]] []) 0).
Proof.
  apply (cif_mass_conservation CifSpec.hidden_2x3 CifSpec.alphas_2x3 1 2 3 1
           [[[q 2 1]; [q 5 1]]; [[0]; [0]]]).
  - exact CifSpec.wf_2x3.
  - compute_done.
  - compute_done.
  - compute_done.
Defined.

(** A scalar that is a count plus a fraction in [0, 1) has the count as
    its floor. *)
Lemma Qfloor_count_plus_fraction (r x : Qc) (n : nat) :
  0 <= r -> r < 1 -> r + Qc_of_nat n = x -> Qfloor x = Z.of_nat n.
Proof.
  intros H0 H1 <-.
  assert ((r + Qc_of_nat n : Qc) == r + inject_Z (Z.of_nat n))%Q as Hx.
  { unfold Qcplus, Q2Qc. simpl this. rewrite Qred_correct.
    apply Qplus_comp; [reflexivity | apply Qc_of_nat_Z]. }
  rewrite Hx. clear Hx.
  unfold Qcle, Qclt in H0, H1. simpl this in H0, H1.
  rewrite Qred_correct in H0, H1.
  apply Z.le_antisymm.
  - apply Z.lt_succ_r. rewrite Zlt_Qlt.
    eapply Qle_lt_trans; [apply Qfloor_le|].
    unfold Z.succ. rewrite inject_Z_plus.
    change (inject_Z 1) with 1%Q. lra.
  - rewrite <- (Qfloor_Z (Z.of_nat n)) at 1. apply Qfloor_resp_le. lra.
Qed.

(** One batch element: under threshold 1 with a fire trace below 2 it fires
    [floor (sum of its alphas)] times. *)
Lemma row_count_is_floor (al : list Qc) :
  Forall (fun a => 0 <= a) al ->
  (forall t, (t < length al)%nat -> row_fire 1 al t < 2) ->
  Z.of_nat (length (fired_before 1 al (length al))) = Qfloor (foldr Qcplus 0 al).
Proof.
  intros Hal Hfire. symmetry.
  destruct (row_integrate_bounds al (length al) Hal Hfire) as [Hr0 Hr1].
  eapply Qfloor_count_plus_fraction; [exact Hr0 | exact Hr1 |].
  by rewrite row_mass, map_alpha_at.
Qed.

(** With alphas in [0, 1] and threshold 1 the accumulator stays in [0, 1)
    and the fire trace in [0, 2). *)
Lemma row_unit_alphas (al : list Qc) (k : nat) :
  Forall (fun a => 0 <= a /\ a <= 1) al ->
  (0 <= row_integrate 1 al k /\ row_integrate 1 al k < 1)
  /\ (0 <= row_fire 1 al k /\ row_fire 1 al k < 2).
Proof.
  intros Hal.
  assert (forall t, 0 <= alpha_at al t /\ alpha_at al t <= 1) as Ha.
  { intros t. unfold alpha_at. destruct (nth_in_or_default t al 0) as [Hin| ->].
    - rewrite Forall_forall in Hal. apply Hal. by apply list_elem_of_In.
    - split; qc_lra. }
  assert (0 <= row_integrate 1 al k /\ row_integrate 1 al k < 1) as Hi.
  { induction k as [|k [IH0 IH1]]; [simpl; split; qc_lra|].
    destruct (Ha k) as [Ha0 Ha1]. clear Ha Hal.
    simpl. set (i := row_integrate 1 al k) in *. set (a := alpha_at al k) in *.
    clearbody i a. destruct (Qcgeb _ _) eqn:E.
    - apply Qcgeb_true in E. split; qc_lra.
    - apply Qcgeb_false in E. split; qc_lra. }
  split; [exact Hi|]. destruct Hi as [Hi0 Hi1], (Ha k) as [Ha0 Ha1].
  clear Ha Hal. unfold row_fire.
  set (i := row_integrate 1 al k) in *. set (a := alpha_at al k) in *.
  clearbody i a. split; qc_lra.
Qed.

Lemma fires_row_elem hidden alphas threshold B T H b t :
  wf_input B T H hidden alphas -> (b < B)%nat -> (t < T)%nat ->
  Forall (Forall (fun x => x < 2)) (fires_out hidden alphas threshold T) ->
  row_fire threshold (nth b alphas []) t < 2.
Proof.
  intros Hwf Hb Ht Hfires. rewrite Forall_forall in Hfires.
  assert (nth b (fires_out hidden alphas threshold T) []
            ∈ fires_out hidden alphas threshold T) as Hrow.
  { apply nth_elem_of. unfold fires_out.
    rewrite length_map, (length_rows hidden alphas B T H Hwf). lia. }
  specialize (Hfires _ Hrow).
  rewrite (fires_row hidden alphas threshold B T H b Hwf Hb) in Hfires.
  rewrite Forall_forall in Hfires. apply Hfires.
  apply list_elem_of_fmap. exists t. split; [done|]. apply elem_of_seq. lia.
Qed.

(** The number of tokens.  With threshold 1, non-negative alphas on the
    grid and a fire trace below 2, every batch element fires exactly
    [floor (exact sum of its alphas)] times; and the trace is that of the
    float run: rounded by any [fl] that keeps the grid, the loop records
    the same entries. *)
Theorem cif_token_count_is_floor hidden alphas B T H tokens fires :
  wf_input B T H hidden alphas ->
  cif hidden alphas 1 = Ok (tokens, fires) ->
  Forall (Forall (fun a => on_grid a = true)) alphas ->
  Forall (Forall (fun a => 0 <= a)) alphas ->
  Forall (Forall (fun x => x < 2)) fires ->
  (forall b, (b < B)%nat ->
     Z.of_nat (length (fire_positions 1 (nth b fires [])))
     = Qfloor (foldr Qcplus 0 (nth b alphas [])))
  /\ (forall fl, exact_on_grid fl -> forall b t, (b < B)%nat -> (t < T)%nat ->
       row_fire_fl fl 1 (nth b alphas []) t = nth t (nth b fires []) 0).
Proof.
  intros Hwf Hcif Hgrid Hal Hfires.
  destruct (cif_ok_inv hidden alphas 1 B T H Hwf _ Hcif) as (HB & HT & Hout).
  injection Hout as -> ->.
  assert (forall b, (b < B)%nat -> Forall (fun a => 0 <= a) (nth b alphas [])) as Hrow.
  { intros b Hb. rewrite Forall_forall in Hal. apply Hal. by eapply alphas_row_elem. }
  assert (forall b t, (b < B)%nat -> (t < T)%nat -> row_fire 1 (nth b alphas []) t < 2)
    as Hlt.
  { intros b t Hb Ht. by eapply fires_row_elem. }
  split.
  - intros b Hb.
    rewrite (fires_row hidden alphas 1 B T H b Hwf Hb), fire_positions_row.
    pose proof (alphas_row_length hidden alphas B T H b Hwf Hb) as Hlen.
    rewrite <- Hlen at 1. apply row_count_is_floor; [by apply Hrow|].
    intros t Ht. apply Hlt; [done | lia].
  - intros fl Hfl b t Hb Ht.
    eapply cif_rounded_run; [exact Hwf | exact Hgrid | | exact Hfl | exact Hb | exact Ht].
    clear b t Hb Ht. intros b t Hb Ht. split; [|by apply Hlt].
    destruct (row_integrate_bounds (nth b alphas []) t (Hrow b Hb)) as [Hi0 _].
    { intros t' Ht'. apply Hlt; [done | lia]. }
    assert (0 <= alpha_at (nth b alphas []) t) as Ha.
    { unfold alpha_at. destruct (nth_in_or_default t (nth b alphas []) 0) as [Hin| ->].
      - specialize (Hrow b Hb). rewrite Forall_forall in Hrow.
        apply Hrow. by apply list_elem_of_In.
      - qc_lra. }
    unfold row_fire. clear -Hi0 Ha.
    set (i := row_integrate 1 (nth b alphas []) t) in *.
    set (a := alpha_at (nth b alphas []) t) in *. clearbody i a. qc_lra.
Qed.

Lemma cif_token_count_is_floor_witness :
  (forall b, (b < 2)%nat ->
     Z.of_nat (length (fire_positions 1
        (nth b [[q 1 2; q 1 1; q 1 1]; [q 1 4; q 1 2; q 3 4]] [])))
     = Qfloor (foldr Qcplus 0 (nth b CifSpec.alphas_2x3 [])))
  /\ (forall fl, exact_on_grid fl -> forall b t, (b < 2)%nat -> (t < 3)%nat ->
       row_fire_fl fl 1 (nth b CifSpec.alphas_2x3 []) t
       = nth t (nth b [[q 1 2; q 1 1; q 1 1]; [q 1 4; q 1 2; q 3 4]] []) 0).
Proof.
  apply (cif_token_count_is_floor CifSpec.hidden_2x3 CifSpec.alphas_2x3 2 3 1
           [[[q 2 1]; [q 5 1]]; [[0]; [0]]]).
  - exact CifSpec.wf_2x3.
  - compute_done.
  - compute_done.
  - compute_done.
  - compute_done.
Defined.

Lemma fires_out_unit_alphas hidden alphas B T H :
  wf_input B T H hidden alphas ->
  Forall (Forall (fun a => 0 <= a /\ a <= 1)) alphas ->
  Forall (Forall (fun x => 0 <= x /\ x < 2)) (fires_out hidden alphas 1 T)
  /\ map (fun trace => Z.of_nat (length (fire_positions 1 trace)))
       (fires_out hidden alphas 1 T)
     = map (fun al : vec => Qfloor (foldr Qcplus 0 al)) alphas.
Proof.
  intros Hwf Hal.
  assert (forall r, r ∈ rows hidden alphas -> Forall (fun a => 0 <= a /\ a <= 1) r.2) as Hrow.
  { intros [hs al] Hr. rewrite Forall_forall in Hal. apply Hal. by eapply elem_of_zip_r. }
  split.
  - unfold fires_out. apply Forall_fmap, Forall_forall. intros r Hr. simpl.
    apply Forall_fmap, Forall_forall. intros t _. simpl.
    apply (row_unit_alphas r.2 t (Hrow r Hr)).
  - unfold fires_out. rewrite map_map.
    rewrite <- (rows_snd hidden alphas B T H Hwf) at 2. rewrite map_map.
    apply map_ext_in. intros r Hr%list_elem_of_In. rewrite fire_positions_row.
    assert (length r.2 = T) as Hlen.
    { pose proof (rows_time hidden alphas B T H Hwf) as Ht.
      rewrite Forall_forall in Ht. by apply Ht. }
    rewrite <- Hlen. apply row_count_is_floor.
    + eapply Forall_impl; [exact (Hrow r Hr)|]. by intros a [? _].
    + intros t _. apply (row_unit_alphas r.2 t (Hrow r Hr)).
Qed.

(** Alphas in [0, 1] on the grid are enough for threshold 1: no step then
    needs more than one firing (the fire trace stays in [0, 2)), and every
    batch element fires [floor (exact sum of its alphas)] times; and the
    trace is that of the float run: rounded by any [fl] that keeps the
    grid, the loop records the same entries. *)
Theorem cif_unit_alphas_fire_once hidden alphas B T H tokens fires :
  wf_input B T H hidden alphas ->
  cif hidden alphas 1 = Ok (tokens, fires) ->
  Forall (Forall (fun a => on_grid a = true)) alphas ->
  Forall (Forall (fun a => 0 <= a /\ a <= 1)) alphas ->
  Forall (Forall (fun x => 0 <= x /\ x < 2)) fires
  /\ map (fun trace => Z.of_nat (length (fire_positions 1 trace))) fires
     = map (fun al : vec => Qfloor (foldr Qcplus 0 al)) alphas
  /\ (forall fl, exact_on_grid fl -> forall b t, (b < B)%nat -> (t < T)%nat ->
       row_fire_fl fl 1 (nth b alphas []) t = nth t (nth b fires []) 0).
Proof.
  intros Hwf Hcif Hgrid Hal.
  destruct (cif_ok_inv hidden alphas 1 B T H Hwf _ Hcif) as (HB & HT & Hout).
  injection Hout as -> ->.
  destruct (fires_out_unit_alphas hidden alphas B T H Hwf Hal) as [Hunit Hcount].
  split; [exact Hunit|]. split; [exact Hcount|].
  intros fl Hfl b t Hb Ht.
  eapply cif_rounded_run; [exact Hwf | exact Hgrid | | exact Hfl | exact Hb | exact Ht].
  clear b t Hb Ht. intros b t Hb Ht.
  assert (Forall (fun a => 0 <= a /\ a <= 1) (nth b alphas [])) as Hrow.
  { rewrite Forall_forall in Hal. apply Hal. by eapply alphas_row_elem. }
  destruct (row_unit_alphas (nth b alphas []) t Hrow) as [_ [Hf0 Hf1]].
  split; [|done]. clear -Hf0.
  set (f := row_fire 1 (nth b alphas []) t) in *. clearbody f. qc_lra.
Qed.

Lemma cif_unit_alphas_fire_once_witness :
  Forall (Forall (fun x => 0 <= x /\ x < 2))
    [[q 1 2; q 1 1; q 1 1]; [q 1 4; q 1 2; q 3 4]]
  /\ map (fun trace => Z.of_nat (length (fire_positions 1 trace)))
       [[q 1 2; q 1 1; q 1 1]; [q 1 4; q 1 2; q 3 4]]
     = map (fun al : vec => Qfloor (foldr Qcplus 0 al)) CifSpec.alphas_2x3
  /\ (forall fl, exact_on_grid fl -> forall b t, (b < 2)%nat -> (t < 3)%nat ->
       row_fire_fl fl 1 (nth b CifSpec.alphas_2x3 []) t
       = nth t (nth b [[q 1 2; q 1 1; q 1 1]; [q 1 4; q 1 2; q 3 4]] []) 0).
Proof.
  apply (cif_unit_alphas_fire_once CifSpec.hidden_2x3 CifSpec.alphas_2x3 2 3 1
           [[[q 2 1]; [q 5 1]]; [[0]; [0]]]).
  - exact CifSpec.wf_2x3.
  - compute_done.
  - compute_done.
  - compute_done.
Defined.

Lemma col_take {A} (t n : nat) (m : list (list A)) :
  (t < n)%nat -> col t (map (take n) m) = col t m.
Proof.
  intros Ht. unfold col. f_equal.
  induction m as [|row m IH]; [done|].
  cbn [map mapM]. by rewrite IH, lookup_take_lt.
Qed.

Lemma cif_loop_alphas_ext hidden alphas alphas' threshold n t vs s :
  (forall t', (t <= t' < t + n)%nat -> col t' alphas = col t' alphas') ->
  cif_loop hidden alphas threshold n t vs s = cif_loop hidden alphas' threshold n t vs s.
Proof.
  revert t vs s. induction n as [|n IH]; intros t vs s Hcol; [done|].
  cbn [cif_loop]. unfold mbind, store_bind, Store.bind.
  assert (cif_body hidden alphas threshold t vs s
          = cif_body hidden alphas' threshold t vs s) as ->.
  { unfold cif_body. by rewrite (Hcol t) by lia. }
  destruct (cif_body hidden alphas' threshold t vs s) as [[vs' s']|]; [|done].
  apply IH. intros t' Ht'. apply Hcol. lia.
Qed.

(** [cif] reads the first [len_time] columns of [alphas] and no other: a
    wider [alphas] gives the result of its first [len_time] columns. *)
Theorem cif_reads_len_time_columns hidden alphas threshold :
  cif hidden alphas threshold
  = cif hidden (map (take (len_time hidden)) alphas) threshold.
Proof.
  unfold cif, mbind, store_bind, Store.bind.
  destruct (cif_init hidden Store.empty) as [[vs s]|]; [|done].
  rewrite (cif_loop_alphas_ext hidden alphas (map (take (len_time hidden)) alphas));
    [done|].
  intros t Ht. symmetry. apply col_take. lia.
Qed.

(** *** One batch element alone, and a prefix of the frames *)

Lemma tokens_row hidden alphas threshold B T H b :
  wf_input B T H hidden alphas -> (b < B)%nat ->
  nth b (tokens_out hidden alphas threshold T H) []
  = map (row_record H threshold (nth b (data3 hidden) []) (nth b alphas []))
        (fired_before threshold (nth b alphas []) T)
    ++ replicate (max_fires hidden alphas threshold T
                  - length (fired_before threshold (nth b alphas []) T)) (zeros H).
Proof.
  intros Hwf Hb. unfold tokens_out.
  rewrite (nth_rows hidden alphas B T H Hwf) by done.
  unfold tokens_of, firing.
  rewrite (nth_rows_alphas hidden alphas B T H Hwf).
  by rewrite (nth_rows_hidden hidden alphas B T H Hwf).
Qed.

Lemma wf_single hidden alphas B T H b :
  wf_input B T H hidden alphas -> (b < B)%nat ->
  wf_input 1 T H (Tensor3 (1, T, H)%nat [nth b (data3 hidden) []]) [nth b alphas []].
Proof.
  intros (Hs & [Hl Hrows] & [Hl' Hrows']) Hb.
  rewrite Forall_forall in Hrows. rewrite Forall_forall in Hrows'.
  split; [done|]. split; (split; [done|]); apply Forall_singleton.
  - apply Hrows, nth_elem_of. lia.
  - apply Hrows', nth_elem_of. lia.
Qed.

(** Batching changes nothing.  Running [cif] on batch element [b] alone
    returns the row of the fire trace and the tokens that the batched run
    returns for it; the batch only adds zero vectors after the tokens. *)
Theorem cif_batch_independent hidden alphas threshold B T H tokens fires b :
  wf_input B T H hidden alphas ->
  cif hidden alphas threshold = Ok (tokens, fires) ->
  (b < B)%nat ->
  cif (Tensor3 (1, T, H)%nat [nth b (data3 hidden) []]) [nth b alphas []] threshold
  = Ok ([take (length (fire_positions threshold (nth b fires []))) (nth b tokens [])],
        [nth b fires []]).
Proof.
  intros Hwf Hcif Hb.
  destruct (cif_ok_inv hidden alphas threshold B T H Hwf _ Hcif) as (HB & HT & Hout).
  injection Hout as -> ->.
  pose proof (wf_single hidden alphas B T H b Hwf Hb) as Hwf1.
  rewrite (cif_value _ _ threshold 1 T H Hwf1) by lia.
  rewrite (fires_row hidden alphas threshold B T H b Hwf Hb), fire_positions_row.
  rewrite (tokens_row hidden alphas threshold B T H b Hwf Hb).
  rewrite <- (length_map (row_record H threshold (nth b (data3 hidden) []) (nth b alphas []))).
  rewrite take_app_length.
  unfold tokens_out, fires_out, max_fires, rows, tokens_of, firing.
  cbn [data3 zip zip_with map fst snd max_list foldr].
  fold (fired_before threshold (nth b alphas []) T).
  rewrite Nat.max_0_r, Nat.sub_diag. cbn [replicate]. by rewrite app_nil_r.
Qed.

Lemma cif_batch_independent_witness :
  cif (Tensor3 (1, 3, 1)%nat [nth 1 (data3 CifSpec.hidden_2x3) []])
      [nth 1 CifSpec.alphas_2x3 []] 1
  = Ok ([take (length (fire_positions 1
                 (nth 1 [[q 1 2; q 1 1; q 1 1]; [q 1 4; q 1 2; q 3 4]] [])))
              (nth 1 [[[q 2 1]; [q 5 1]]; [[0]; [0]]] [])],
        [nth 1 [[q 1 2; q 1 1; q 1 1]; [q 1 4; q 1 2; q 3 4]] []]).
Proof.
  apply (cif_batch_independent CifSpec.hidden_2x3 CifSpec.alphas_2x3 1 2 3 1).
  - exact CifSpec.wf_2x3.
  - compute_done.
  - lia.
Defined.

Lemma nth_take_lt {A} (l : list A) (d : A) t k :
  (t < k)%nat -> nth t (take k l) d = nth t l d.
Proof. intros Ht. by rewrite !nth_lookup, lookup_take_lt. Qed.

(** The state of one batch element after [j] steps depends on the first
    [j] frames and alphas only. *)
Lemma row_prefix (H : nat) threshold (hs : list vec) (al : list Qc) (k j : nat) :
  (j <= k)%nat ->
  row_integrate threshold (take k al) j = row_integrate threshold al j
  /\ row_frame H threshold (take k hs) (take k al) j = row_frame H threshold hs al j.
Proof.
  induction j as [|j IH]; intros Hj; [done|].
  destruct IH as [IHi IHf]; [lia|].
  cbn [row_integrate row_frame]. cbv zeta.
  unfold fired, row_remainds, row_cur, fired, row_fire, alpha_at, frame_at.
  rewrite IHi, IHf, !nth_take_lt by lia. done.
Qed.

Lemma row_fire_prefix threshold (al : list Qc) (k t : nat) :
  (t < k)%nat -> row_fire threshold (take k al) t = row_fire threshold al t.
Proof.
  intros Ht. unfold row_fire, alpha_at.
  destruct (row_prefix 0 threshold [] al k t) as [-> _]; [lia|].
  by rewrite nth_take_lt.
Qed.

Lemma row_record_prefix (H : nat) threshold (hs : list vec) (al : list Qc) (k t : nat) :
  (t < k)%nat ->
  row_record H threshold (take k hs) (take k al) t = row_record H threshold hs al t.
Proof.
  intros Ht. unfold row_record, row_cur, fired.
  rewrite row_fire_prefix by done. unfold alpha_at, frame_at.
  destruct (row_prefix H threshold hs al k t) as [-> ->]; [lia|].
  by rewrite !nth_take_lt.
Qed.

Lemma fired_before_prefix threshold (al : list Qc) (k j : nat) :
  (j <= k)%nat ->
  fired_before threshold (take k al) j = fired_before threshold al j.
Proof.
  intros Hj. unfold fired_before. apply filter_ext_elem.
  intros t Ht%elem_of_seq. unfold fired. by rewrite row_fire_prefix by lia.
Qed.

Lemma fired_before_take threshold (al : list Qc) (k T : nat) :
  (k <= T)%nat ->
  take (length (fired_before threshold al k)) (fired_before threshold al T)
  = fired_before threshold al k.
Proof.
  intros Hk. unfold fired_before.
  replace T with (k + (T - k))%nat by lia.
  rewrite seq_app, filter_app. by rewrite take_app_length.
Qed.

Lemma wf_prefix hidden alphas B T H k :
  wf_input B T H hidden alphas -> (k <= T)%nat ->
  wf_input B k H (Tensor3 (B, k, H) (map (take k) (data3 hidden))) (map (take k) alphas).
Proof.
  intros (Hs & [Hl Hrows] & [Hl' Hrows']) Hk.
  split; [done|]. cbn [data3].
  split; (split; [by rewrite length_map|]); apply Forall_fmap.
  - eapply Forall_impl; [exact Hrows|]. simpl. intros row [Hlen Hfr].
    split; [rewrite length_take; lia | by apply Forall_take].
  - eapply Forall_impl; [exact Hrows'|]. simpl. intros row Hlen.
    rewrite length_take. lia.
Qed.

(** Streaming.  [cif] on the first [k] frames returns the first [k]
    columns of the fire trace of the whole input, and the tokens it emits
    for a batch element are the first tokens of the whole input: what has
    been emitted never changes when more frames arrive. *)
Theorem cif_prefix hidden alphas threshold B T H tokens fires k :
  wf_input B T H hidden alphas ->
  cif hidden alphas threshold = Ok (tokens, fires) ->
  (0 < k <= T)%nat ->
  exists tokens_k,
    cif (Tensor3 (B, k, H) (map (take k) (data3 hidden))) (map (take k) alphas) threshold
    = Ok (tokens_k, map (take k) fires)
    /\ forall b, (b < B)%nat ->
         let n := length (fire_positions threshold (take k (nth b fires []))) in
         take n (nth b tokens_k []) = take n (nth b tokens []).
Proof.
  intros Hwf Hcif [Hk0 HkT].
  destruct (cif_ok_inv hidden alphas threshold B T H Hwf _ Hcif) as (HB & HT & Hout).
  injection Hout as -> ->.
  pose proof (wf_prefix hidden alphas B T H k Hwf HkT) as Hwfk.
  set (hidden_k := Tensor3 (B, k, H) (map (take k) (data3 hidden))) in *.
  set (alphas_k := map (take k) alphas) in *.
  exists (tokens_out hidden_k alphas_k threshold k H).
  assert (forall b, (b < B)%nat -> nth b alphas_k [] = take k (nth b alphas [])) as Hak.
  { intros b Hb. subst alphas_k.
    rewrite (nth_indep _ [] (take k [])) by (rewrite length_map; destruct Hwf as (_ & _ & [-> _]); lia).
    apply (map_nth (take k)). }
  assert (forall b, (b < B)%nat ->
            nth b (data3 hidden_k) [] = take k (nth b (data3 hidden) [])) as Hhk.
  { intros b Hb. subst hidden_k. cbn [data3].
    rewrite (nth_indep _ [] (take k [])) by (rewrite length_map; destruct Hwf as (_ & [-> _] & _); lia).
    apply (map_nth (take k)). }
  assert (forall b, (b < B)%nat ->
            take k (nth b (fires_out hidden alphas threshold T) [])
            = map (fun t => row_fire threshold (nth b alphas []) t) (seq 0 k)) as Hfk.
  { intros b Hb. rewrite (fires_row hidden alphas threshold B T H b Hwf Hb).
    rewrite firstn_map, take_seq. by rewrite Nat.min_l by lia. }
  split.
  - rewrite (cif_value _ _ threshold B k H Hwfk) by lia. f_equal. f_equal.
    apply nth_ext with (d := []) (d' := []).
    + unfold fires_out. rewrite !length_map.
      by rewrite (length_rows _ _ B k H Hwfk), (length_rows _ _ B T H Hwf).
    + intros b Hb. unfold fires_out at 1 in Hb.
      rewrite length_map, (length_rows _ _ B k H Hwfk) in Hb.
      rewrite (fires_row hidden_k alphas_k threshold B k H b Hwfk Hb).
      rewrite (nth_indep (map (take k) (fires_out hidden alphas threshold T)) [] (take k []))
        by (unfold fires_out; rewrite !length_map, (length_rows _ _ B T H Hwf); lia).
      rewrite (map_nth (take k)), Hfk, Hak by done.
      apply map_ext_in. intros t Ht%in_seq. apply row_fire_prefix. lia.
  - intros b Hb n. subst n. rewrite Hfk, fire_positions_row by done.
    rewrite (tokens_row hidden_k alphas_k threshold B k H b Hwfk Hb).
    rewrite (tokens_row hidden alphas threshold B T H b Hwf Hb).
    rewrite Hak, Hhk by done. rewrite fired_before_prefix by lia.
    set (fk := fired_before threshold (nth b alphas []) k).
    set (fT := fired_before threshold (nth b alphas []) T).
    assert (take (length fk) fT = fk) as HfT by (by apply fired_before_take).
    assert (length fk <= length fT)%nat as Hle.
    { rewrite <- HfT at 1. rewrite length_take. lia. }
    rewrite take_app_length' by (by rewrite length_map).
    rewrite take_app_le by (by rewrite length_map).
    rewrite firstn_map, HfT.
    apply map_ext_in. intros t Ht%list_elem_of_In. subst fk.
    unfold fired_before in Ht. apply list_elem_of_filter in Ht as [_ Ht%elem_of_seq].
    apply row_record_prefix. lia.
Qed.

Lemma cif_prefix_witness :
  exists tokens_k,
    cif (Tensor3 (2, 2, 1)%nat (map (take 2) (data3 CifSpec.hidden_2x3)))
        (map (take 2) CifSpec.alphas_2x3) 1
    = Ok (tokens_k, map (take 2) [[q 1 2; q 1 1; q 1 1]; [q 1 4; q 1 2; q 3 4]])
    /\ forall b, (b < 2)%nat ->
         let n := length (fire_positions 1
                    (take 2 (nth b [[q 1 2; q 1 1; q 1 1]; [q 1 4; q 1 2; q 3 4]] []))) in
         take n (nth b tokens_k []) = take n (nth b [[[q 2 1]; [q 5 1]]; [[0]; [0]]] []).
Proof.
  apply (cif_prefix CifSpec.hidden_2x3 CifSpec.alphas_2x3 1 2 3 1).
  - exact CifSpec.wf_2x3.
  - compute_done.
  - lia.
Defined.

End CifLaws.

(** * Laws of the masks and of [tail_process_fn] *)

Module PredictorLaws.
Import Cif Predictor TorchFacts CifLoop CifLaws PredictorSpec.

Lemma zip_with_replicate_right {A B C} (f : A -> B -> C) (l : list A) (c : B) n :
  length l = n -> zip_with f l (replicate n c) = map (fun x => f x c) l.
Proof.
  intros <-. induction l as [|x l IH]; simpl; [done | by rewrite IH].
Qed.

Lemma zip_with_replicate_left {A B C} (f : A -> B -> C) (l : list B) (c : A) n :
  length l = n -> zip_with f (replicate n c) l = map (f c) l.
Proof.
  intros <-. induction l as [|x l IH]; simpl; [done | by rewrite IH].
Qed.


Lemma sum_app (u v : list Qc) :
  foldr Qcplus 0 (u ++ v) = foldr Qcplus 0 u + foldr Qcplus 0 v.
Proof. induction u as [|x u IH]; simpl; [ring|]. rewrite IH. ring. Qed.

Lemma sum_zeros n : foldr Qcplus 0 (zeros n) = 0.
Proof.
  unfold zeros. induction n as [|n IH]; simpl; [done|]. rewrite IH. ring.
Qed.

Lemma sum_ones n : foldr Qcplus 0 (ones n) = Qc_of_nat n.
Proof.
  unfold ones. induction n as [|n IH].
  - apply Qc_is_canon. reflexivity.
  - cbn [replicate foldr]. rewrite IH, Qc_of_nat_S. ring.
Qed.

(** A row of the mask: [min L W] ones, then zeros. *)
Lemma mask_row (L W : nat) :
  map (fun t => if (t <? L)%nat then 1 else 0) (seq 0 W)
  = ones (Nat.min L W) ++ zeros (W - Nat.min L W).
Proof.
  replace W with (Nat.min L W + (W - Nat.min L W))%nat at 1 by lia.
  rewrite seq_app, map_app. unfold ones, zeros. f_equal.
  - rewrite <- (length_seq (Nat.min L W) 0) at 2. rewrite replicate_as_map.
    apply map_ext_in. intros t Ht%in_seq.
    destruct (Nat.ltb_spec t L); [done | lia].
  - rewrite <- (length_seq (W - Nat.min L W) (0 + Nat.min L W)) at 2.
    rewrite replicate_as_map.
    apply map_ext_in. intros t Ht%in_seq.
    destruct (Nat.ltb_spec t L); [lia | done].
Qed.

(** Round trip of the lengths.  Without [maxlen] the mask of a non-empty
    list of lengths has one row per length and the width of the largest
    one, and its row sums are the lengths again; on no length at all
    [lengths.max()] raises. *)
Theorem sequence_mask_row_sums (lengths : list nat) :
  match sequence_mask lengths None with
  | Ok mask =>
      lengths <> []
      /\ shape2 (length lengths) (max_list lengths) mask
      /\ sum_last mask = map Qc_of_nat lengths
  | Raise e => lengths = [] /\ e = RuntimeError
  end.
Proof.
  destruct lengths as [|l0 ls]; [done|].
  set (lengths := l0 :: ls). unfold sequence_mask. cbn [max_of mbind result_bind].
  fold lengths. split; [done|]. split.
  - split; [by rewrite length_map|].
    apply Forall_fmap, Forall_forall. intros l _. simpl.
    by rewrite length_map, length_seq.
  - unfold sum_last. rewrite map_map. apply map_ext_in.
    intros l Hl%list_elem_of_In. apply max_list_elem_of_le in Hl.
    rewrite mask_row, sum_app, sum_ones, sum_zeros, Nat.min_l by lia. ring.
Qed.

(** With a given width the two mask functions agree, and a length beyond
    the width is cut: row [b] sums to [min (lengths[b]) maxlen]. *)
Theorem sequence_mask_scripts_row_sums (lengths : list nat) (maxlen : nat) :
  sequence_mask lengths (Some maxlen) = Ok (sequence_mask_scripts lengths maxlen)
  /\ shape2 (length lengths) maxlen (sequence_mask_scripts lengths maxlen)
  /\ sum_last (sequence_mask_scripts lengths maxlen)
     = map (fun l => Qc_of_nat (Nat.min l maxlen)) lengths.
Proof.
  split; [done|]. unfold sequence_mask_scripts. split.
  - split; [by rewrite length_map|].
    apply Forall_fmap, Forall_forall. intros l _. simpl.
    by rewrite length_map, length_seq.
  - unfold sum_last. rewrite map_map. apply map_ext. intros l.
    rewrite mask_row, sum_app, sum_ones, sum_zeros. ring.
Qed.

(** The value of [tail_process_fn] when the batch sizes agree. *)
Lemma tail_process_fn_value (self : CifPredictorV2) hidden alphas (mask : mat) B T H :
  size3 hidden = (B, T, H) -> length (data3 hidden) = B ->
  length alphas = B -> length mask = B ->
  let tail := fun m : vec =>
    map (fun x : Qc => x * tail_threshold self) (vsub ([1] ++ m) (m ++ [0])) in
  let alphas' := zip_with (fun al m => al ++ tail m) alphas mask in
  tail_process_fn self hidden alphas mask
  = Ok (Tensor3 (B, T + 1, H)%nat (map (fun hs => hs ++ [zeros H]) (data3 hidden)),
        alphas',
        map (fun row : vec => Qfloor (foldr Qcplus 0 row)) alphas').
Proof.
  intros Hsize Hh Ha Hm tail alphas'. unfold tail_process_fn. rewrite Hsize.
  unfold cat1. rewrite !length_replicate, Hm, Nat.eqb_refl.
  cbn [mbind result_bind].
  rewrite (zip_with_replicate_right app mask [0] B Hm).
  rewrite (zip_with_replicate_left app mask [1] B Hm).
  rewrite (zip_with_map2 mask vsub).
  rewrite map_map, length_map, Ha, Hm, Nat.eqb_refl. cbn [mbind result_bind].
  rewrite Hh, Nat.eqb_refl. cbn [mbind result_bind].
  rewrite (zip_with_replicate_right app (data3 hidden) [zeros H] B Hh).
  rewrite zip_with_fmap_r. unfold sum_last. rewrite map_map. reflexivity.
Qed.



(** What [cif] sees of the flush.  [hidden'] has [T + 1] frames, so [cif]
    reads the first [T + 1] columns of [alphas']: the input alphas and the
    first entry of the appended block, which is 0 for every sequence that
    has a first frame.  [cif] on the result of [tail_process_fn] is [cif]
    on the frames with one zero frame and one zero alpha appended: the tail
    threshold does not reach it. *)
Theorem cif_after_tail_process_fn (self : CifPredictorV2) hidden alphas (mask : mat)
    threshold B T H :
  wf_input B T H hidden alphas -> shape2 B T mask ->
  Forall (fun m : vec => head m = Some 1) mask ->
  exists hidden' alphas' token_num_floor,
    tail_process_fn self hidden alphas mask = Ok (hidden', alphas', token_num_floor)
    /\ cif hidden' alphas' threshold
       = cif hidden' (map (fun al => al ++ [0]) alphas) threshold.
Proof.
  intros (Hsize & [Hh _] & [Ha Harows]) [Hm _] Hhead. eexists _, _, _.
  split; [by apply (tail_process_fn_value self hidden alphas mask B T H)|].
  rewrite cif_reads_len_time_columns.
  rewrite (cif_reads_len_time_columns _ (map _ alphas)).
  f_equal. unfold len_time. cbn [size3 fst snd]. rewrite map_map.
  clear Hsize Hh. subst B. revert mask Hm Hhead.
  induction Harows as [|al alphas Hal _ IH]; intros [|m mask] Hm Hhead; try done.
  apply Forall_cons in Hhead as [Hm0 Hhead].
  cbn [zip_with map]. f_equal; [|apply IH; [by injection Hm | done]].
  rewrite !take_app_add' by done. f_equal.
  destruct m as [|m0 m']; [done|]. injection Hm0 as ->.
  cbn [app vsub zip_with map take]. f_equal. ring.
Qed.

Lemma cif_after_tail_process_fn_witness :
  exists hidden' alphas' token_num_floor,
    tail_process_fn predictor_045 CifSpec.hidden_2x3 CifSpec.alphas_2x3
      [[1; 1; 1]; [1; 1; 0]]
    = Ok (hidden', alphas', token_num_floor)
    /\ cif hidden' alphas' 1
       = cif hidden' (map (fun al => al ++ [0]) CifSpec.alphas_2x3) 1.
Proof.
  apply (cif_after_tail_process_fn predictor_045 CifSpec.hidden_2x3 CifSpec.alphas_2x3
           [[1; 1; 1]; [1; 1; 0]] 1 2 3 1).
  - exact CifSpec.wf_2x3.
  - repeat split; repeat constructor.
  - repeat constructor.
Defined.

End PredictorLaws.

(** * Laws of [CifPredictorV2.forward] *)

Module ForwardLaws.
Import Cif Predictor PredictorForward TorchFacts CifLoop CifLaws.

Lemma zip_exact_Some {A B C} (f : A -> B -> option C) (g : A -> B -> C) l k :
  Forall2 (fun a b => f a b = Some (g a b)) l k ->
  zip_exact f l k = Some (zip_with g l k).
Proof.
  induction 1 as [|a b l k Hab _ IH]; [done|].
  simpl. by rewrite Hab, IH.
Qed.

Lemma mapM_singletons (x : mat) :
  mapM (mapM (fun v : vec => match v with [a] => Some a | _ => None end))
    (map (map (fun a => [a])) x) = Some x.
Proof.
  apply mapM_Some. induction x as [|row x IH]; constructor; [|done].
  apply mapM_Some. induction row; by constructor.
Qed.

Lemma transpose_single (row : vec) :
  transpose_rows [row] = map (fun a => [a]) row.
Proof.
  unfold transpose_rows, transpose_to.
  apply list_eq. intros j. rewrite !list_lookup_fmap.
  destruct (decide (j < length row)%nat) as [Hj|Hj].
  - rewrite lookup_seq_lt by done. simpl.
    destruct (lookup_lt_is_Some_2 row j Hj) as [a Ha]. rewrite Ha. simpl.
    by rewrite (nth_lookup_Some _ _ _ _ Ha).
  - rewrite lookup_seq_ge by lia. rewrite lookup_ge_None_2 by lia. done.
Qed.

Lemma relu_nonneg x : 0 <= relu x.
Proof.
  unfold relu. destruct (Qcgeb x 0) eqn:E.
  - apply Qcgeb_true in E. qc_lra.
  - qc_lra.
Qed.

Lemma singletons_of_shape (B T : nat) (x : list mat) :
  shape3 B T 1 x -> x = map (map (fun a => [a])) (map (map (fun v => nth 0 v 0)) x).
Proof.
  intros [_ Hx]. induction Hx as [|m x [_ Hm] _ IH]; [done|].
  simpl. f_equal; [|done]. clear IH.
  induction Hm as [|v m Hv _ IH]; [done|].
  simpl. f_equal; [|done].
  destruct v as [|a [|]]; by try discriminate.
Qed.

Section Forward.
Variables (pad cif_conv1d cif_output : list mat -> list mat).
Variable sigmoid : Qc -> Qc.

Local Abbreviation logits := (cif_logits pad cif_conv1d cif_output).
Local Abbreviation forward := (forward pad cif_conv1d cif_output sigmoid).

(** The mask of frames, one row per element, out of the (B, 1, T) tensor. *)
Definition mask_rows (mask : list mat) : mat := map (fun m => nth 0 m []) mask.

(** The weights of [forward] in closed form. *)
Definition forward_alphas (self : CifPredictorV2) (hidden : tensor3) (mask : list mat) : mat :=
  zip_with (zip_with Qcmult)
    (map (map (fun v => alpha_of sigmoid self (nth 0 v 0))) (logits hidden))
    (mask_rows mask).

Definition mask_ok (B T : nat) (mask : list mat) : Prop :=
  length mask = B /\ Forall (fun m => exists row, m = [row] /\ length row = T) mask.

Lemma forward_value self hidden mask B T :
  shape3 B T 1 (logits hidden) ->
  mask_ok B T mask ->
  forward self hidden mask =
    (let alphas := forward_alphas self hidden mask in
     '(acoustic_embeds, cif_peak) ← cif hidden alphas (threshold self);
     Ok (acoustic_embeds, sum_last alphas, alphas, cif_peak)).
Proof.
  intros Hs [HmB Hm]. unfold PredictorForward.forward.
  set (A := map (map (fun v => alpha_of sigmoid self (nth 0 v 0))) (logits hidden)).
  assert (map (map (map (alpha_of sigmoid self))) (logits hidden)
          = map (map (fun a => [a])) A) as ->.
  { subst A. rewrite (singletons_of_shape B T _ Hs) at 1.
    rewrite !map_map. apply map_ext. intros m. rewrite !map_map. done. }
  assert (map transpose_rows mask = map (map (fun a => [a])) (mask_rows mask)) as ->.
  { unfold mask_rows. rewrite map_map. apply map_ext_Forall.
    eapply Forall_impl; [exact Hm|]. intros m (row & -> & _). simpl.
    apply transpose_single. }
  assert (shape2 B T A) as [HA1 HA2].
  { destruct Hs as [Hs1 Hs2]. subst A. split; [by rewrite length_map|].
    apply Forall_fmap. eapply Forall_impl; [exact Hs2|].
    intros m [Hlen _]. simpl. by rewrite length_map. }
  assert (shape2 B T (mask_rows mask)) as [HM1 HM2].
  { unfold mask_rows. split; [by rewrite length_map|].
    apply Forall_fmap. eapply Forall_impl; [exact Hm|].
    intros m (row & -> & Hrow). done. }
  unfold mul3.
  assert (zip_exact (zip_exact (zip_exact (fun a b : Qc => Some (a * b))))
            (map (map (fun a => [a])) A) (map (map (fun a => [a])) (mask_rows mask))
          = Some (map (map (fun a => [a])) (zip_with (zip_with Qcmult) A (mask_rows mask)))) as ->.
  { set (M := mask_rows mask) in *. clearbody A M.
    assert (length A = length M) as Hlen by lia. clear HA1 HM1.
    revert M HM2 Hlen. induction HA2 as [|ra A Hra _ IH]; intros [|rm M] HM2 Hlen;
      try done.
    apply Forall_cons in HM2 as [Hrm HM2]. simpl in Hlen.
    cbn [map zip_with zip_exact]. rewrite IH by (done || lia).
    assert (zip_exact (zip_exact (fun a b : Qc => Some (a * b)))
              (map (fun a => [a]) ra) (map (fun a => [a]) rm)
            = Some (map (fun a => [a]) (zip_with Qcmult ra rm))) as ->; [|done].
    assert (length ra = length rm) as Hl by lia. clear -Hl.
    revert rm Hl. induction ra as [|a ra IH]; intros [|b rm] Hl; try done.
    simpl in Hl. cbn [map zip_with zip_exact]. rewrite IH by lia. done. }
  cbn [of_option]. unfold squeeze_last.
  change (Ok ?x ≫= ?f) with (f x). cbv beta.
  rewrite mapM_singletons. done.
Qed.

Lemma nth_zip_with_mult (l k : vec) (t : nat) :
  nth t k 0 = 0 -> nth t (zip_with Qcmult l k) 0 = 0.
Proof.
  revert k t. induction l as [|a l IH]; intros [|m k] [|t] Hm; simpl in *;
    try done.
  - subst m. ring.
  - by apply IH.
Qed.

Lemma nth_zip_with_rows (A M : mat) (b t : nat) :
  nth t (nth b M []) 0 = 0 ->
  nth t (nth b (zip_with (zip_with Qcmult) A M) []) 0 = 0.
Proof.
  revert M b. induction A as [|ra A IH]; intros [|rm M] [|b] Hm; simpl in *;
    try (by destruct t).
  - by apply nth_zip_with_mult.
  - by apply IH.
Qed.

Lemma Forall_zip_with {X Y Z} (P : X -> Prop) (Q : Y -> Prop) (R : Z -> Prop)
    (f : X -> Y -> Z) l k :
  (forall x y, P x -> Q y -> R (f x y)) ->
  Forall P l -> Forall Q k -> Forall R (zip_with f l k).
Proof.
  intros Hf Hl. revert k. induction Hl as [|x l Hx _ IH]; intros k Hk; [done|].
  destruct Hk as [|y k Hy Hk]; [done|].
  simpl. constructor; [by apply Hf | by apply IH].
Qed.

Lemma Qc_mult_nonneg (a m : Qc) : 0 <= a -> 0 <= m -> 0 <= a * m.
Proof. intros Ha Hm. rewrite <- (Qcmult_0_l m). by apply Qcmult_le_compat_r. Qed.

Lemma mask_rows_Forall (P : Qc -> Prop) (B T : nat) (mask : list mat) :
  mask_ok B T mask ->
  Forall (Forall (Forall P)) mask -> Forall (Forall P) (mask_rows mask).
Proof.
  intros [_ Hm] HP. unfold mask_rows. apply Forall_fmap.
  rewrite Forall_forall in Hm, HP. apply Forall_forall. intros m Hin.
  destruct (Hm m Hin) as (row & -> & _). simpl.
  specialize (HP _ Hin). by apply Forall_cons in HP as [? _].
Qed.

Lemma nth_mask_rows (mask : list mat) (b : nat) :
  nth b (mask_rows mask) [] = nth 0 (nth b mask []) [].
Proof.
  revert b. induction mask as [|m mask IH]; intros [|b]; simpl; done.
Qed.

Lemma shape2_forward_alphas self hidden mask B T :
  shape3 B T 1 (logits hidden) -> mask_ok B T mask ->
  shape2 B T (forward_alphas self hidden mask).
Proof.
  intros [Hs1 Hs2] [Hm1 Hm2]. unfold forward_alphas, mask_rows. split.
  - rewrite length_zip_with, !length_map. lia.
  - apply (Forall_zip_with (fun r : vec => length r = T) (fun r : vec => length r = T)).
    + intros x y Hx Hy. rewrite length_zip_with. lia.
    + apply Forall_fmap. eapply Forall_impl; [exact Hs2|].
      intros m [Hlen _]. simpl. by rewrite length_map.
    + apply Forall_fmap. eapply Forall_impl; [exact Hm2|].
      by intros m (row & -> & Hrow).
Qed.

(** What [forward] returns when it returns: the weights have one entry per
    frame, none is negative, those of masked frames are zero, [token_num]
    is their sum per batch element, and the embeddings and the fire trace
    are those of [cif] on these weights with the model's threshold. *)
Theorem forward_alphas_nonneg_and_masked self hidden mask B T
    acoustic_embeds token_num alphas cif_peak :
  shape3 B T 1 (logits hidden) ->
  mask_ok B T mask ->
  Forall (Forall (Forall (fun m => 0 <= m))) mask ->
  forward self hidden mask = Ok (acoustic_embeds, token_num, alphas, cif_peak) ->
  shape2 B T alphas
  /\ Forall (Forall (fun a => 0 <= a)) alphas
  /\ (forall b t, nth t (nth 0 (nth b mask []) []) 0 = 0 ->
                  nth t (nth b alphas []) 0 = 0)
  /\ token_num = sum_last alphas
  /\ cif hidden alphas (threshold self) = Ok (acoustic_embeds, cif_peak).
Proof.
  intros Hs Hm Hpos Hfw. rewrite (forward_value self hidden mask B T Hs Hm) in Hfw.
  cbv zeta in Hfw.
  destruct (cif hidden (forward_alphas self hidden mask) (threshold self))
    as [[e p]|err] eqn:Hcif; [|done].
  injection Hfw as <- <- <- <-.
  split; [by apply shape2_forward_alphas|].
  split; [|split; [|done]].
  - unfold forward_alphas.
    apply (Forall_zip_with (Forall (fun a => 0 <= a)) (Forall (fun m => 0 <= m))).
    + intros x y. apply Forall_zip_with. intros a m. apply Qc_mult_nonneg.
    + apply Forall_fmap, Forall_forall. intros m _. simpl.
      apply Forall_fmap, Forall_forall. intros v _. simpl. apply relu_nonneg.
    + by eapply mask_rows_Forall.
  - intros b t Hz. unfold forward_alphas. apply nth_zip_with_rows.
    by rewrite nth_mask_rows.
Qed.

End Forward.
End ForwardLaws.

Module ForwardToy.
Import Cif Predictor PredictorForward TorchFacts ForwardLaws.

(** A small stand-in for the trained modules: no padding, the identity for
    the convolution, the sum of the features for the output layer, and a
    clamp to [0, 1] in place of the sigmoid. *)
Definition toy_pad (x : list mat) : list mat := x.
Definition toy_conv1d (x : list mat) : list mat := x.
Definition toy_output (x : list mat) : list mat :=
  map (map (fun f : vec => [foldr Qcplus 0 f])) x.
Definition toy_sigmoid (x : Qc) : Qc :=
  if Qcgeb x 1 then 1 else if Qcgeb x 0 then x else 0.
Definition toy_hidden : tensor3 :=
  Tensor3 (2, 3, 2)%nat
    [[[q 1 4; q 1 4]; [q 1 2; q 1 4]; [q 1 1; q 1 1]];
     [[q 1 8; q 1 8]; [q 1 2; q 1 2]; [q 1 4; 0]]].
Definition toy_mask : list mat := [[[1; 1; 1]]; [[1; 1; 0]]].

Definition toy_forward := forward toy_pad toy_conv1d toy_output toy_sigmoid.

Lemma toy_logits_shape :
  shape3 2 3 1 (cif_logits toy_pad toy_conv1d toy_output toy_hidden).
Proof. repeat split; repeat constructor. Defined.

Lemma toy_mask_ok : mask_ok 2 3 toy_mask.
Proof.
  split; [done|]. repeat constructor.
  - by exists [1; 1; 1].
  - by exists [1; 1; 0].
Defined.

Lemma forward_alphas_nonneg_and_masked_witness :
  shape2 2 3 [[q 1 2; q 3 4; 1]; [q 1 4; 1; 0]]
  /\ Forall (Forall (fun a => 0 <= a)) [[q 1 2; q 3 4; 1]; [q 1 4; 1; 0]]
  /\ (forall b t, nth t (nth 0 (nth b toy_mask []) []) 0 = 0 ->
                  nth t (nth b [[q 1 2; q 3 4; 1]; [q 1 4; 1; 0]] []) 0 = 0)
  /\ [q 9 4; q 5 4] = sum_last [[q 1 2; q 3 4; 1]; [q 1 4; 1; 0]]
  /\ cif toy_hidden [[q 1 2; q 3 4; 1]; [q 1 4; 1; 0]]
       (threshold PredictorSpec.predictor_045)
     = Ok ([[[q 3 8; q 1 4]; [q 7 8; q 13 16]]; [[q 13 32; q 13 32]; [0; 0]]],
           [[q 1 2; q 5 4; q 5 4]; [q 1 4; q 5 4; q 1 4]]).
Proof.
  apply (forward_alphas_nonneg_and_masked toy_pad toy_conv1d toy_output toy_sigmoid
           PredictorSpec.predictor_045 toy_hidden toy_mask 2 3).
  - exact toy_logits_shape.
  - exact toy_mask_ok.
  - repeat constructor; compute_done.
  - compute_done.
Defined.

End ForwardToy.

(** * Laws of [ESPnetPunctuationModel.forward] *)

Module PunctuationLaws.
Import Punctuation PunctuationForward PunctuationSpec TorchFacts.

Lemma sum_replicate (n : nat) (x : Qc) :
  foldr Qcplus 0 (replicate n x) = Q2Qc (inject_Z (Z.of_nat n)) * x.
Proof.
  change (foldr Qcplus 0 (replicate n x) = CifLaws.Qc_of_nat n * x).
  induction n as [|n IH].
  - change (CifLaws.Qc_of_nat 0) with (Q2Qc 0). simpl. ring.
  - cbn [replicate foldr]. rewrite IH, CifLaws.Qc_of_nat_S. ring.
Qed.

Lemma Qc_of_nat_nonzero (n : nat) :
  (0 < n)%nat -> Q2Qc (inject_Z (Z.of_nat n)) <> 0.
Proof.
  intros Hn E. apply (f_equal this) in E. simpl in E.
  assert (inject_Z (Z.of_nat n) == 0)%Q as E'.
  { rewrite <- (Qred_correct (inject_Z (Z.of_nat n))). by rewrite E. }
  unfold Qeq, inject_Z in E'. simpl in E'. lia.
Qed.

Lemma sum_concat (m : mat) :
  foldr Qcplus 0 (concat m) = foldr Qcplus 0 (map (foldr Qcplus 0) m).
Proof.
  induction m as [|row m IH]; [done|].
  cbn [concat map foldr]. rewrite PredictorLaws.sum_app, IH. done.
Qed.

Lemma sum_filled_row (l k : nat) (row : vec) :
  foldr Qcplus 0
    (zip_with fill (map (fun t => (l <=? t)%nat) (seq k (length row))) row)
  = foldr Qcplus 0 (take (l - k) row).
Proof.
  revert k. induction row as [|v row IH]; intros k; [by rewrite take_nil|].
  cbn [length seq map zip_with foldr]. rewrite IH.
  destruct (Nat.leb_spec l k) as [Hle|Hlt].
  - replace (l - k)%nat with 0%nat by lia. replace (l - S k)%nat with 0%nat by lia.
    rewrite !take_0. simpl. ring.
  - replace (l - k)%nat with (S (l - S k)) by lia. done.
Qed.

Section Model.
Context {Logits : Type}.
Variable nll_at : Logits -> Z -> result Qc.
Variable top1 : Logits -> Z.
Variable f1_score_micro : list Z -> list Z -> Qc.
Variable force_gatherable : scalar * stats * nat -> scalar * stats * nat.

Local Abbreviation forward := (forward nll_at top1 f1_score_micro force_gatherable).

(** With the training flag off, the "loss" of [forward] is not a loss: it
    is the micro-averaged F1 score of the [topk(1)] predictions, and the
    weight is the number of tokens.  On a batch without tokens the
    division by zero leaves no number. *)
Theorem forward_evaluation_loss_is_f1 (self : ESPnetPunctuationModel Logits)
    text punc text_lengths punc_lengths B W y :
  training self = false ->
  nll_input_ok nll_at self text punc text_lengths B W y ->
  exists l,
    forward self text punc text_lengths punc_lengths
    = Ok (force_gatherable (l, Stats l, sum_list text_lengths))
    /\ ((0 < sum_list text_lengths)%nat ->
        l = Finite (f1_score_micro
                      (concat (slice_cols (max_list text_lengths) punc))
                      (map top1 (concat y))))
    /\ (sum_list text_lengths = 0%nat -> l = NotFinite).
Proof.
  intros Htr Hok. unfold PunctuationForward.forward.
  rewrite (nll_eval_value nll_at top1 f1_score_micro self text punc text_lengths
             punc_lengths B W y Hok Htr).
  cbn [mbind result_bind]. eexists. split; [reflexivity|].
  unfold true_divide, tensor_sum. split.
  - intros Hn. destruct (Nat.eqb_spec (sum_list text_lengths) 0) as [|_]; [lia|].
    f_equal. rewrite sum_replicate. field. by apply Qc_of_nat_nonzero.
  - by intros ->.
Qed.

(** With the training flag on, the loss of [forward] is the sum of the
    cross entropies of the positions inside the sequences, those with an
    ignored target counting 0, divided by the number of all positions
    inside the sequences; nothing beyond a sequence's length enters. *)
Theorem forward_training_loss_is_token_mean (self : ESPnetPunctuationModel Logits)
    text punc text_lengths punc_lengths B W y :
  training self = true ->
  nll_input_ok nll_at self text punc text_lengths B W y ->
  forward self text punc text_lengths punc_lengths
  = let total :=
      foldr Qcplus 0
        (zip_with (fun (l : nat) (row : vec) => foldr Qcplus 0 (take l row))
           text_lengths (losses nll_at self punc text_lengths y)) in
    let l := true_divide total (sum_list text_lengths) in
    Ok (force_gatherable (l, Stats l, sum_list text_lengths)).
Proof.
  intros Htr Hok. unfold PunctuationForward.forward.
  rewrite (nll_training_value nll_at top1 f1_score_micro self text punc text_lengths
             punc_lengths B W y Hok Htr).
  cbn [mbind result_bind]. cbv zeta.
  replace (tensor_sum (Tensor2 (nll_rows nll_at self punc text_lengths y)))
    with (foldr Qcplus 0
            (zip_with (fun (l : nat) (row : vec) => foldr Qcplus 0 (take l row))
               text_lengths (losses nll_at self punc text_lengths y))); [done|].
  unfold tensor_sum. rewrite sum_concat. f_equal.
  unfold nll_rows, make_pad_mask.
  pose proof (shape2_losses nll_at self text punc text_lengths B W y Hok) as [_ Hrows].
  pose proof (ok_lengths _ _ _ _ _ _ _ _ Hok) as Hlen.
  generalize (max_list text_lengths) Hrows. clear. intros L.
  generalize (losses nll_at self punc text_lengths y). clear.
  induction text_lengths as [|l ls IH]; intros [|row m] Hrows; try done.
  apply Forall_cons in Hrows as [Hrow Hrows].
  cbn [map zip_with]. rewrite (IH m Hrows). f_equal.
  rewrite <- Hrow, sum_filled_row. by rewrite Nat.sub_0_r.
Qed.

End Model.

Lemma forward_evaluation_loss_is_f1_witness :
  exists l,
    forward toy_nll_at toy_top1 toy_score (fun out => out) (toy_model false)
      toy_text toy_punc toy_lengths toy_lengths
    = Ok (l, Stats l, sum_list toy_lengths)
    /\ ((0 < sum_list toy_lengths)%nat ->
        l = Finite (toy_score (concat (slice_cols (max_list toy_lengths) toy_punc))
                      (map toy_top1 (concat toy_text))))
    /\ (sum_list toy_lengths = 0%nat -> l = NotFinite).
Proof.
  apply (forward_evaluation_loss_is_f1 toy_nll_at toy_top1 toy_score (fun out => out)
           (toy_model false) toy_text toy_punc toy_lengths toy_lengths 2 3 toy_text).
  - reflexivity.
  - exact (toy_input_ok false).
Defined.

Lemma forward_training_loss_is_token_mean_witness :
  forward toy_nll_at toy_top1 toy_score (fun out => out) (toy_model true)
    toy_text toy_punc toy_lengths toy_lengths
  = let total :=
      foldr Qcplus 0
        (zip_with (fun (l : nat) (row : vec) => foldr Qcplus 0 (take l row))
           toy_lengths (losses toy_nll_at (toy_model true) toy_punc toy_lengths toy_text)) in
    let l := true_divide total (sum_list toy_lengths) in
    Ok (l, Stats l, sum_list toy_lengths).
Proof.
  apply (forward_training_loss_is_token_mean toy_nll_at toy_top1 toy_score (fun out => out)
           (toy_model true) toy_text toy_punc toy_lengths toy_lengths 2 3 toy_text).
  - reflexivity.
  - exact (toy_input_ok true).
Defined.

Lemma nll_explicit_max_length_raises_witness :
  is_ok (Punctuation.nll toy_nll_at toy_top1 toy_score (toy_model true)
           toy_text toy_punc toy_lengths toy_lengths (Some 3%nat)) = false.
Proof.
  apply (nll_explicit_max_length_raises toy_nll_at toy_top1 toy_score (toy_model true)
           toy_text toy_punc toy_lengths toy_lengths 3).
  - reflexivity.
  - reflexivity.
  - simpl. lia.
  - lia.
Defined.

(** A batch of two or more sequences, the longest of two or more tokens,
    that is padded beyond its longest sequence makes [nll] raise, with the
    training flag on or off: the targets cut to the longest length are no
    longer evenly spaced in their storage, and [punc.view(-1)] refuses
    them.  (When the longest sequence has one token the slice is a single
    column, which [view] accepts.) *)
Theorem nll_wide_padding_raises {Logits} (nll_at : Logits -> Z -> result Qc)
    (top1 : Logits -> Z) (f1_score_micro : list Z -> list Z -> Qc)
    (self : ESPnetPunctuationModel Logits) text punc text_lengths punc_lengths row :
  (2 <= length punc)%nat ->
  (2 <= max_list text_lengths)%nat ->
  row ∈ punc -> (max_list text_lengths < length row)%nat ->
  is_ok (Punctuation.nll nll_at top1 f1_score_micro self text punc text_lengths
           punc_lengths None) = false.
Proof.
  intros HB HL Hrow Hwide. unfold Punctuation.nll.
  assert (max_of text_lengths = Ok (max_list text_lengths)) as ->.
  { unfold max_of. destruct text_lengths; [simpl in HL; lia | done]. }
  cbn [mbind result_bind].
  destruct (punc_model self _ _) as [y|]; [|done].
  assert (view_flat_slice (max_list text_lengths) punc = Raise RuntimeError) as Hview.
  { unfold view_flat_slice.
    assert (forallb (fun r : list Z => (length r <=? max_list text_lengths)%nat) punc
            = false) as ->.
    { apply not_true_is_false. intros Hall.
      rewrite forallb_forall in Hall. apply list_elem_of_In in Hrow.
      specialize (Hall row Hrow). apply Nat.leb_le in Hall. lia. }
    destruct (Nat.leb_spec (length punc) 1); [lia|].
    destruct (Nat.leb_spec (max_list text_lengths) 1); [lia|]. done. }
  destruct (training self); cbn [negb]; by rewrite Hview.
Qed.

Lemma nll_wide_padding_raises_witness :
  is_ok (Punctuation.nll toy_nll_at toy_top1 toy_score (toy_model false)
           toy_text toy_punc [2; 1]%nat [2; 1]%nat None) = false.
Proof.
  apply (nll_wide_padding_raises toy_nll_at toy_top1 toy_score (toy_model false)
           toy_text toy_punc [2; 1]%nat [2; 1]%nat [1; 0; 2]%Z).
  - simpl. lia.
  - simpl. lia.
  - unfold toy_punc. constructor.
  - simpl. lia.
Defined.

(** On the toy batch of five tokens: two of the three positions of the
    first sequence and both of the second carry the loss 1/2. *)
Example forward_toy_training :
  forward toy_nll_at toy_top1 toy_score (fun out => out) (toy_model true)
    toy_text toy_punc toy_lengths toy_lengths
  = Ok (Finite (q 2 5), Stats (Finite (q 2 5)), 5%nat).
Proof. compute_done. Qed.

End PunctuationLaws.
